(** * lc-cache: consistent-hash ring and cache group

    A shallow embedding of the two Go packages of the repository:
    - package [consistenthash] (the hash ring: [New], [Add], [Get],
      [Remove]);
    - package [lc_cache] (the cache group: [NewGroup], [RegisterPeers],
      [Get], [load], [getLocally], [Delete], ...).

    Go values are modelled as follows.  An [int] is a [Z]: [int] is taken
    to have 64 bits, and the ring only ever holds values converted from a
    [uint32], so no wrap-around can occur (where [int] has 32 bits the
    conversion wraps and the values of the entries differ); a [uint32] is
    a [Z] reduced modulo [2^32]; a Go [string] is
    a [string], and [[]byte(s)] is its list of bytes; the [map[int]string]
    of the ring is a [gmap Z string] whose missing keys read as the empty
    string; a slice used as a growing sequence is a [list]. *)

From Stdlib Require Import ZArith Lia DecimalString.
From Stdlib.Strings Require Import Byte.
From stdpp Require Import base numbers list sorting gmap strings.

Open Scope Z_scope.

(** ** Go runtime and standard-library functions used by the code *)

Module Go.

Abbreviation bytes := (list byte) (only parsing).

(** [[]byte(s)] *)
Definition bytes_of_string (s : string) : bytes := String.list_byte_of_string s.

(** A [uint32] value, with its wrap-around. *)
Definition uint32 (z : Z) : Z := z mod 2 ^ 32.

(** [strconv.Itoa] *)
Definition Itoa (i : Z) : string := NilZero.string_of_int (Z.to_int i).

(** [crc32.ChecksumIEEE], bit by bit (reflected polynomial 0xEDB88320). *)
Definition crc_bit (c : Z) : Z :=
  if Z.testbit c 0 then Z.lxor (Z.shiftr c 1) 0xEDB88320 else Z.shiftr c 1.

Definition crc_byte (c : Z) (b : byte) : Z :=
  Nat.iter 8 crc_bit (Z.lxor c (Z.of_N (Byte.to_N b))).

Definition ChecksumIEEE (data : bytes) : Z :=
  Z.lxor (fold_left crc_byte data 0xFFFFFFFF) 0xFFFFFFFF.

(** [sort.Search(n, f)]: the loop
    [i, j := 0, n; for i < j { h := int(uint(i+j) >> 1);
                               if !f(h) { i = h + 1 } else { j = h } }; return i].
    Every iteration shrinks [j - i], so [n] iterations are always enough
    (lemma [search_loop_fuel] below); the fuel only makes the recursion
    structural. *)
Fixpoint search_loop (fuel : nat) (f : nat → bool) (i j : nat) : nat :=
  match fuel with
  | O => i
  | S fuel' =>
      if decide (i < j)%nat then
        let h := ((i + j) / 2)%nat in
        if f h then search_loop fuel' f i h
        else search_loop fuel' f (h + 1)%nat j
      else i
  end.

Definition Search (n : nat) (f : nat → bool) : nat := search_loop n f 0%nat n.

(** [a[i]] on a slice of ints; [Search] only ever reads indices below
    the length, so the default is never returned. *)
Definition index (a : list Z) (i : nat) : Z := nth i a 0.

(** [sort.SearchInts(a, x)] *)
Definition SearchInts (a : list Z) (x : Z) : nat :=
  Search (length a) (λ i, bool_decide (x ≤ index a i)).

(** [sort.Ints]: the ascending arrangement of the slice. *)
Definition Ints (a : list Z) : list Z := merge_sort Z.le a.

(** The result of a call that may panic: either it returns a value, or
    it panics; in both cases the mutable state is left as the call made
    it. *)
Inductive panic :=
| SliceBoundsOutOfRange (low high : nat)
| NilDereference
| PanicMsg (msg : string).

Inductive outcome (S A : Type) :=
| Returned (a : A) (s : S)
| Panicked (p : panic) (s : S).
Arguments Returned {S A} a s.
Arguments Panicked {S A} p s.

Definition state_of {S A} (o : outcome S A) : S :=
  match o with Returned _ s => s | Panicked _ s => s end.

Definition panicked {S A} (o : outcome S A) : Prop :=
  match o with Returned _ _ => False | Panicked _ _ => True end.

End Go.

(** ** Package consistenthash *)

Module consistenthash.
Import Go.

(** [type Hash func(data []byte) uint32] *)
Definition Hash := bytes → Z.

Record Map := mkMap {
  hash : Hash;
  replicas : Z;
  keys : list Z;
  hashMap : gmap Z string
}.

Definition defaultHash : Hash := ChecksumIEEE.
Definition defaultReplicas : Z := 150.

(** a function that updates a [Map] in place *)
Definition ConsOptions := Map → Map.

Definition New (opts : list ConsOptions) : Map :=
  fold_left (λ m opt, opt m) opts
    {| hash := defaultHash; replicas := defaultReplicas;
       keys := []; hashMap := ∅ |}.

Definition Replicas (r : Z) : ConsOptions :=
  λ m, {| hash := hash m; replicas := r;
          keys := keys m; hashMap := hashMap m |}.

Definition HashFunc (h : Hash) : ConsOptions :=
  λ m, {| hash := h; replicas := replicas m;
          keys := keys m; hashMap := hashMap m |}.

(** [int(m.hash([]byte(s)))] *)
Definition hash_of (m : Map) (s : string) : Z :=
  uint32 (hash m (bytes_of_string s)).

(** [int(m.hash([]byte(strconv.Itoa(i) + key)))] *)
Definition vnode (m : Map) (i : Z) (key : string) : Z :=
  hash_of m (Itoa i +:+ key).

(** The values taken by [i] in [for i := 0; i < m.replicas; i++]. *)
Definition replica_range (m : Map) : list Z :=
  Z.of_nat <$> seq 0 (Z.to_nat (replicas m)).

(** Body of the inner loop of [Add]. *)
Definition add_vnode (key : string) (m : Map) (i : Z) : Map :=
  let h := vnode m i key in
  {| hash := hash m; replicas := replicas m;
     keys := keys m ++ [h];
     hashMap := <[h := key]> (hashMap m) |}.

Definition add_member (m : Map) (key : string) : Map :=
  fold_left (add_vnode key) (replica_range m) m.

Definition Add (m : Map) (ks : list string) : Map :=
  let m' := fold_left add_member ks m in
  {| hash := hash m'; replicas := replicas m';
     keys := Ints (keys m'); hashMap := hashMap m' |}.

Definition Get (m : Map) (key : string) : string :=
  if decide (length (keys m) = 0%nat) then ""
  else
    let h := hash_of m key in
    let idx := Search (length (keys m))
                 (λ i, bool_decide (h ≤ index (keys m) i)) in
    default "" (hashMap m !! index (keys m) (idx mod length (keys m))%nat).

(** Body of the loop of [Remove].  [m.keys[:idx]] is always in bounds
    ([idx ≤ len]); [m.keys[idx+1:]] panics when [idx + 1 > len]. *)
Definition remove_vnode (key : string) (m : Map) (i : Z) : outcome Map unit :=
  let h := vnode m i key in
  let idx := SearchInts (keys m) h in
  if decide (idx + 1 ≤ length (keys m))%nat then
    Returned tt {| hash := hash m; replicas := replicas m;
                   keys := take idx (keys m) ++ drop (idx + 1) (keys m);
                   hashMap := delete h (hashMap m) |}
  else Panicked (SliceBoundsOutOfRange (idx + 1) (length (keys m))) m.

Fixpoint remove_loop (key : string) (rs : list Z) (m : Map) : outcome Map unit :=
  match rs with
  | [] => Returned tt m
  | i :: rs' =>
      match remove_vnode key m i with
      | Returned _ m' => remove_loop key rs' m'
      | Panicked p m' => Panicked p m'
      end
  end.

Definition Remove (m : Map) (key : string) : outcome Map unit :=
  remove_loop key (replica_range m) m.

(** [m.hashMap[k]]: the member a ring entry maps to, the empty string
    when there is none. *)
Definition owner (m : Map) (k : Z) : string := default "" (hashMap m !! k).

(** The virtual-node hashes of a member, in the order of the replica
    index. *)
Definition vnodes (m : Map) (key : string) : list Z :=
  (λ i, vnode m i key) <$> replica_range m.

(** Several writes [hashMap[h] = key], and several [delete(hashMap, h)]. *)
Definition insert_all (key : string) (hs : list Z) (hm : gmap Z string)
  : gmap Z string :=
  fold_left (λ hm h, <[h := key]> hm) hs hm.

Definition delete_all (hs : list Z) (hm : gmap Z string) : gmap Z string :=
  fold_left (λ hm h, delete h hm) hs hm.

(** The virtual-node hashes of several members. *)
Definition all_vnodes (m : Map) (members : list string) : list Z :=
  members ≫= vnodes m.

(** The ring entries that map to a member. *)
Definition entries_of (m : Map) (member : string) : list Z :=
  filter (λ k, owner m k = member) (keys m).

(** What a run of [Add] calls from [m0] has built once the members [ms]
    are in: the ring holds their hashes, each mapped to its member. *)
Definition built (m0 : Map) (ms : list string) (m : Map) : Prop :=
  hash m = hash m0 ∧ replicas m = replicas m0 ∧
  keys m ≡ₚ all_vnodes m0 ms ∧
  ∀ x h, x ∈ ms → h ∈ vnodes m0 x → hashMap m !! h = Some x.

(** The mapping after the writes of [Add] for several members, in the
    order of the calls: a later member overwrites an earlier one on a
    shared hash. *)
Definition insert_members (m : Map) (members : list string)
  (hm : gmap Z string) : gmap Z string :=
  fold_left (λ hm x, insert_all x (vnodes m x) hm) members hm.

(** The ring entry that serves a hash: the least entry that is at least
    the hash, or the least entry of all when every entry is below it. *)
Definition nearest (ks : list Z) (h k : Z) : Prop :=
  k ∈ ks ∧
  ((h ≤ k ∧ ∀ k', k' ∈ ks → h ≤ k' → k ≤ k') ∨
   ((∀ k', k' ∈ ks → k' < h) ∧ ∀ k', k' ∈ ks → k ≤ k')).

(** The ring states a program can build: [New] with the two exported
    options, then any calls of [Add] and [Remove] (a [Remove] that
    panicked leaves the ring as it was when the panic occurred). *)
Inductive is_option : ConsOptions → Prop :=
| opt_replicas r : is_option (Replicas r)
| opt_hash h : is_option (HashFunc h).

Inductive reachable : Map → Prop :=
| reach_New opts : Forall is_option opts → reachable (New opts)
| reach_Add m ks : reachable m → reachable (Add m ks)
| reach_Remove m key : reachable m → reachable (state_of (Remove m key)).

End consistenthash.

(** ** Package lc_cache *)

Module lc_cache.
Import Go.

(** *** Memory, time and the log

    Byte slices are references into a heap of buffers, so that two
    slices over one buffer see each other's writes. *)

Abbreviation loc := nat (only parsing).

Inductive slice :=
| nil_slice
| Slice (ptr : loc) (off len : nat).

Abbreviation heap_t := (gmap loc bytes) (only parsing).

(** [time.Time], as an offset from the zero instant. *)
Definition Time := Z.
Definition IsZero (t : Time) : bool := bool_decide (t = 0).

(** What the callbacks of the user and the runtime services share:
    the heap, the wall clock and the lines written through [log]
    (without their time stamps). *)
Record World := mkWorld {
  heap : heap_t;
  clock : Time;
  logs : list string
}.

(** [len(s)] *)
Definition slice_len (s : slice) : nat :=
  match s with nil_slice => 0%nat | Slice _ _ n => n end.

(** The bytes a slice denotes in a heap. *)
Definition slice_bytes (h : heap_t) (s : slice) : bytes :=
  match s with
  | nil_slice => []
  | Slice p off n => take n (drop off (default [] (h !! p)))
  end.

(** A slice a Go program can hold: it lies within an allocated buffer. *)
Definition valid_slice (h : heap_t) (s : slice) : Prop :=
  match s with
  | nil_slice => True
  | Slice p off n => ∃ buf, h !! p = Some buf ∧ (off + n ≤ length buf)%nat
  end.

(** [s[i] = x]; [None] when the index is out of range. *)
Definition slice_store (h : heap_t) (s : slice) (i : nat) (x : byte)
  : option heap_t :=
  match s with
  | nil_slice => None
  | Slice p off n =>
      if decide (i < n)%nat then
        buf ← h !! p; Some (<[p := <[(off + i)%nat := x]> buf]> h)
      else None
  end.

(** Several writes [s[i] = x], one after the other. *)
Fixpoint slice_stores (h : heap_t) (s : slice) (writes : list (nat * byte))
  : option heap_t :=
  match writes with
  | [] => Some h
  | (i, x) :: rest => h' ← slice_store h s i x; slice_stores h' s rest
  end.

(** [type ByteView struct { b []byte }]; [ByteView{}] holds the nil slice. *)
Record ByteView := mkByteView { b : slice }.
Definition ByteView_zero : ByteView := {| b := nil_slice |}.

(** Modelled from the spec: [cloneBytes], which group.go calls and does
    not define; the spec requires that it "clone the returned bytes into
    an owned, immutable buffer": a newly allocated buffer holding a copy
    of the bytes of the slice. *)
Definition cloneBytes (s : slice) (w : World) : slice * World :=
  let data := slice_bytes (heap w) s in
  let p := fresh (dom (heap w)) in
  (Slice p 0 (length data),
   {| heap := <[p := data]> (heap w); clock := clock w; logs := logs w |}).

(** [log.Println(line)] *)
Definition Println (line : string) (w : World) : unit * World :=
  (tt, {| heap := heap w; clock := clock w; logs := logs w ++ [line] |}).

(** Go's [error], identified by its message; [nil] is [None]. *)
Definition error := string.
Definition Errorf (msg : string) : option error := Some msg.

(** The two errors the group itself creates. *)
Definition InvalidKey : error := "key is required".
Definition NotFound : error := "data not found".

(** *** The interfaces [Getter], [PeerGetter] and [PeerPicker]

    An implementation is user code: it may read and change the world.
    The two peer interfaces are declared outside group.go; their
    signatures are those of the calls in group.go and of section 6 of the
    specification.  [PickPeer] may hand out a nil peer. *)

Definition Getter := string → World → (slice * bool * Time) * World.

Record PeerGetter := mkPeerGetter {
  peer_Get : string → string → World → (slice * option error) * World;
  peer_Delete : string → string → World → (bool * option error) * World
}.

Record PeerPicker := mkPeerPicker {
  PickPeer : string → World → (option PeerGetter * bool * bool) * World
}.

(** *** The local store [cache]

    The type [cache] and its methods [get], [add], [addWithExpiration]
    and [delete] are defined outside group.go.  The group is modelled
    over any implementation of them; [get] consults the clock. *)
Class Store (C : Type) := {
  cache_new : Z → C;
  cache_get : string → Time → C → option ByteView * C;
  cache_add : string → ByteView → C → C;
  cache_addWithExpiration : string → ByteView → Time → C → C;
  cache_delete : string → C → bool * C
}.

(** Modelled from the spec: the type [Group] of package singleflight,
    which group.go imports: "a mapping from key to an in-flight call
    record".  Calls are taken one at a time here, so that no call is in
    flight when another one starts. *)
Module singleflight.
Record Group := mkGroup { calls : gset string }.
Definition empty : Group := {| calls := ∅ |}.
End singleflight.

Section group.
Context {C : Type} `{Store C}.

(** The getter of a group is never nil: [NewGroup], the only place where
    a group is built, panics on a nil getter. *)
Record Group := mkGroup {
  name : string;
  getter : Getter;
  mainCache : C;
  peers : option PeerPicker;
  loader : singleflight.Group
}.

(** [g.mainCache] and [g.peers] after an update. *)
Definition with_cache (g : Group) (c : C) : Group :=
  {| name := name g; getter := getter g; mainCache := c;
     peers := peers g; loader := loader g |}.

Definition with_peers (g : Group) (ps : option PeerPicker) : Group :=
  {| name := name g; getter := getter g; mainCache := mainCache g;
     peers := ps; loader := loader g |}.

(** A method of [*Group] runs on the receiver and the world, and
    returns or panics. *)
Definition M (A : Type) : Type := Group * World → outcome (Group * World) A.

Definition ret {A} (a : A) : M A := λ s, Returned a s.

Definition bind {A B} (m : M A) (k : A → M B) : M B :=
  λ s, match m s with
       | Returned a s' => k a s'
       | Panicked p s' => Panicked p s'
       end.

Definition throw {A} (p : panic) : M A := λ s, Panicked p s.

(** The receiver [g]. *)
Definition this : M Group := λ s, Returned (fst s) s.

(** A call into user code or the runtime. *)
Definition call {A} (f : World → A * World) : M A :=
  λ s, let '(a, w') := f (snd s) in Returned a (fst s, w').

(** A call of a method of [g.mainCache]. *)
Definition on_cache {A} (f : Time → C → A * C) : M A :=
  λ s, let '(a, c') := f (clock (snd s)) (mainCache (fst s)) in
       Returned a (with_cache (fst s) c', snd s).

(** Calling a method on an interface value that is nil panics. *)
Definition deref {A} (x : option A) : M A :=
  match x with Some a => ret a | None => throw NilDereference end.

Notation "'let!' x ':=' m 'in' k" := (bind m (λ x, k))
  (at level 10, x pattern, m at level 100, k at level 200).
Notation "m ';;' k" := (bind m (λ _, k))
  (at level 100, k at level 200, right associativity).

(** Modelled from the spec: [Do] of package singleflight, called as
    [g.loader.Do(key, fn)].  "If no call is in flight, register one,
    invoke producer synchronously on the calling execution context, store
    the result, ..., remove the record, and return the result to the
    original caller": with no call in flight, the result of [fn], and a
    table of calls that is empty again. *)
Definition Do {A} (key : string) (fn : M A) : M A := fn.

(** [g.peers = peers] *)
Definition set_peers (ps : option PeerPicker) : M unit :=
  λ s, Returned tt (with_peers (fst s) ps, snd s).

Definition RegisterPeers (ps : option PeerPicker) : M unit :=
  let! g := this in
  match peers g with
  | Some _ => throw (PanicMsg "RegisterPeerPicker called multiple times")
  | None => set_peers ps
  end.

Definition getFromPeer (peer : option PeerGetter) (key : string)
  : M (ByteView * option error) :=
  let! g := this in
  let! p := deref peer in
  let! (bytes, err) := call (peer_Get p (name g) key) in
  match err with
  | Some e => ret (ByteView_zero, Some e)
  | None =>
      let! c := call (cloneBytes bytes) in
      ret ({| b := c |}, None)
  end.

Definition deleteFromPeer (peer : option PeerGetter) (key : string)
  : M (bool * option error) :=
  let! g := this in
  let! p := deref peer in
  let! (success, err) := call (peer_Delete p (name g) key) in
  match err with
  | Some e => ret (false, Some e)
  | None => ret (success, None)
  end.

Definition getLocally (key : string) : M (ByteView * option error) :=
  let! hit := on_cache (cache_get key) in
  match hit with
  | Some v => call (Println "[Geek-Cache] hit") ;; ret (v, None)
  | None =>
      let! g := this in
      let! (bytes, f, expirationTime) := call (getter g key) in
      if negb f then ret (ByteView_zero, Errorf "data not found")
      else
        let! c := call (cloneBytes bytes) in
        let bw := {| b := c |} in
        (if negb (IsZero expirationTime)
         then on_cache (λ _ c, (tt, cache_addWithExpiration key bw expirationTime c))
         else on_cache (λ _ c, (tt, cache_add key bw c))) ;;
        ret (bw, None)
  end.

(** The nested conditionals at the head of the function passed to
    [Do] in [load]: [Some v] when one of them returns [v, nil],
    [None] when control falls through to [return g.getLocally(key)]. *)
Definition from_peers (key : string) : M (option ByteView) :=
  let! g := this in
  match peers g with
  | None => ret None
  | Some picker =>
      let! (peer, ok, isSelf) := call (PickPeer picker key) in
      if ok then
        if isSelf then
          let! hit := on_cache (cache_get key) in
          match hit with
          | Some v => call (Println "[Geek-Cache] hit") ;; ret (Some v)
          | None => ret None
          end
        else
          let! (value, err) := getFromPeer peer key in
          match err with
          | None => ret (Some value)
          | Some e =>
              call (Println ("[Geek-Cache] Failed to get from peer " +:+ e)) ;;
              ret None
          end
      else ret None
  end.

Definition load (key : string) : M (ByteView * option error) :=
  let! (v, err) :=
    Do key (let! early := from_peers key in
            match early with
            | Some v => ret (v, None)
            | None => getLocally key
            end) in
  match err with
  | None => ret (v, None)
  | Some e => ret (ByteView_zero, Some e)
  end.

Definition Get (key : string) : M (ByteView * option error) :=
  if decide (key = "") then ret (ByteView_zero, Errorf "key is required")
  else load key.

Definition Delete (key : string) : M (bool * option error) :=
  if decide (key = "") then ret (true, Errorf "key is required")
  else
    let! g := this in
    match peers g with
    | None =>
        let! removed := on_cache (λ _, cache_delete key) in
        ret (removed, None)
    | Some picker =>
        let! (peer, ok, isSelf) := call (PickPeer picker key) in
        if negb ok then ret (false, None)
        else if isSelf then
          let! removed := on_cache (λ _, cache_delete key) in
          ret (removed, None)
        else deleteFromPeer peer key
    end.

(** The outcome of a call, seen from a group whose picker is [ps]. *)
Definition seen_with_peers {A} (ps : option PeerPicker)
  (o : outcome (Group * World) A) : outcome (Group * World) A :=
  match o with
  | Returned a s => Returned a (with_peers (fst s) ps, snd s)
  | Panicked p s => Panicked p (with_peers (fst s) ps, snd s)
  end.

(** *** The registry of groups

    [groups] maps a name to a pointer; [objects] holds the group each
    pointer refers to, so that the group [NewGroup] returns and the one
    the registry holds are one object.  The read/write lock is not
    modelled: calls are taken one at a time. *)
Definition ptr := nat.

Record Package := mkPackage {
  groups : gmap string ptr;
  objects : gmap ptr Group
}.

(** The group built by [NewGroup] once the getter is known to be set. *)
Definition new_group (name : string) (cacheBytes : Z) (getter : Getter) : Group :=
  {| name := name; getter := getter; mainCache := cache_new cacheBytes;
     peers := None; loader := singleflight.empty |}.

Definition NewGroup (name : string) (cacheBytes : Z) (getter : option Getter)
  (pk : Package) : outcome Package ptr :=
  match getter with
  | None => Panicked (PanicMsg "nil Getter") pk
  | Some f =>
      let g := fresh (dom (objects pk)) in
      Returned g {| groups := <[name := g]> (groups pk);
                    objects := <[g := new_group name cacheBytes f]> (objects pk) |}
  end.

(** [GetGroup]; [None] is the nil pointer. *)
Definition GetGroup (name : string) (pk : Package) : option ptr :=
  groups pk !! name.

Definition DestroyGroup (name : string) (pk : Package) (w : World)
  : Package * World :=
  match GetGroup name pk with
  | Some _ =>
      ({| groups := delete name (groups pk); objects := objects pk |},
       snd (Println ("Destroy store [" +:+ name +:+ "]") w))
  | None => (pk, w)
  end.

(** One call of an exported method on a group, by any caller in any
    world; the group is left as the call made it, whether the call
    returned or panicked. *)
Inductive group_step : Group → Group → Prop :=
| step_RegisterPeers ps g w :
    group_step g (fst (state_of (RegisterPeers ps (g, w))))
| step_Get key g w :
    group_step g (fst (state_of (Get key (g, w))))
| step_Delete key g w :
    group_step g (fst (state_of (Delete key (g, w)))).

End group.

(** *** A bounded store, as one implementation of [cache] *)
Module bounded.

(** Modelled from the spec: the entries of the Bounded Store of sections
    3 and 4.3, standing for the type [cache] that group.go uses and does
    not define: "key -> {value: immutable byte buffer, expiresAt:
    optional absolute time}", "ordered by recency of access (most
    recently used first)", with "capacity maxBytes" and "running
    usedBytes". *)

Record entry := mkEntry {
  e_key : string;
  e_value : ByteView;
  e_expiresAt : option Time
}.

Record t := mkStore {
  maxBytes : Z;
  usedBytes : Z;
  entries : list entry
}.

(** Modelled from the spec: the size of an entry, which the spec leaves
    open; taken to be the length of the key plus that of the value. *)
Definition size (e : entry) : Z :=
  Z.of_nat (String.length (e_key e) + slice_len (b (e_value e))).

(** Modelled from the spec: expiration, "reports not-found at/after t". *)
Definition expired (now : Time) (e : entry) : bool :=
  match e_expiresAt e with
  | Some at_ => bool_decide (at_ ≤ now)
  | None => false
  end.

(** The entry of a key, and the other entries. *)
Fixpoint take_out (key : string) (es : list entry) : option (entry * list entry) :=
  match es with
  | [] => None
  | e :: es' =>
      if decide (e_key e = key) then Some (e, es')
      else '(x, rest) ← take_out key es'; Some (x, e :: rest)
  end.

(** Modelled from the spec: "evict least-recently-used entries until
    usedBytes <= maxBytes". *)
Fixpoint evict (max used : Z) (lru_first : list entry) : Z * list entry :=
  match lru_first with
  | [] => (used, [])
  | e :: rest =>
      if decide (max < used) then evict max (used - size e) rest
      else (used, lru_first)
  end.

(** Modelled from the spec: the empty store of [cache{cacheBytes: n}]. *)
Definition new (cacheBytes : Z) : t :=
  {| maxBytes := cacheBytes; usedBytes := 0; entries := [] |}.

(** Modelled from the spec: [get], "found is false if key absent or its
    expiration time has passed; on success, mark the entry
    most-recently-used". *)
Definition get (key : string) (now : Time) (s : t) : option ByteView * t :=
  match take_out key (entries s) with
  | Some (e, rest) =>
      if expired now e then (None, s)
      else (Some (e_value e),
            {| maxBytes := maxBytes s; usedBytes := usedBytes s;
               entries := e :: rest |})
  | None => (None, s)
  end.

(** Modelled from the spec: [add] and [addWithExpiration], "insert or
    overwrite; update usedBytes by the size delta; mark
    most-recently-used; then evict least-recently-used entries (that are
    not the one just inserted) until usedBytes <= maxBytes". *)
Definition put (e : entry) (s : t) : t :=
  let '(old, rest) :=
    match take_out (e_key e) (entries s) with
    | Some (x, rest) => (size x, rest)
    | None => (0, entries s)
    end in
  let '(used, kept) :=
    evict (maxBytes s) (usedBytes s - old + size e) (reverse rest) in
  {| maxBytes := maxBytes s; usedBytes := used; entries := e :: reverse kept |}.

Definition add (key : string) (v : ByteView) (s : t) : t :=
  put {| e_key := key; e_value := v; e_expiresAt := None |} s.

Definition addWithExpiration (key : string) (v : ByteView) (at_ : Time) (s : t) : t :=
  put {| e_key := key; e_value := v; e_expiresAt := Some at_ |} s.

(** Modelled from the spec: [delete], "remove entry if present, adjust
    usedBytes, return whether anything was removed". *)
Definition delete (key : string) (s : t) : bool * t :=
  match take_out key (entries s) with
  | Some (e, rest) =>
      (true, {| maxBytes := maxBytes s; usedBytes := usedBytes s - size e;
                entries := rest |})
  | None => (false, s)
  end.

#[global] Instance store : Store t := {|
  cache_new := new;
  cache_get := get;
  cache_add := add;
  cache_addWithExpiration := addWithExpiration;
  cache_delete := delete
|}.

End bounded.

(** *** A small deployment, used to exercise the statements below *)
Module fixtures.

Definition world0 : World := {| heap := ∅; clock := 100; logs := [] |}.

(** A loader that knows the key "foo": it allocates a buffer holding
    "bar" and hands out a slice over it, with no expiration. *)
Definition origin : Getter :=
  λ key w,
    if decide (key = "foo") then
      let p := fresh (dom (heap w)) in
      ((Slice p 0 3, true, 0),
       {| heap := <[p := bytes_of_string "bar"]> (heap w);
          clock := clock w; logs := logs w |})
    else ((nil_slice, false, 0), w).

(** A peer that cannot be reached; its [Delete] nevertheless reports
    [true] next to the error. *)
Definition unreachable_peer : PeerGetter :=
  {| peer_Get := λ _ _ w, ((nil_slice, Some "peer down"), w);
     peer_Delete := λ _ _ w, ((true, Some "peer down"), w) |}.

(** A picker for which every key belongs to the unreachable peer, one
    for which every key belongs to this process, and one that knows no
    peers. *)
Definition remote_picker : PeerPicker :=
  {| PickPeer := λ _ w, ((Some unreachable_peer, true, false), w) |}.

Definition self_picker : PeerPicker :=
  {| PickPeer := λ _ w, ((None, true, true), w) |}.

Definition empty_picker : PeerPicker :=
  {| PickPeer := λ _ w, ((None, false, false), w) |}.

Definition group0 : Group (C := bounded.t) := new_group "scores" 1024 origin.

(** A picker that resolves every key to a remote owner and hands out a
    nil peer. *)
Definition nil_peer_picker : PeerPicker :=
  {| PickPeer := λ _ w, ((None, true, false), w) |}.

(** A peer that answers every get with a slice over a new buffer
    holding "qux", and a picker for which every key belongs to it. *)
Definition answering_peer : PeerGetter :=
  {| peer_Get := λ _ _ w,
       let p := fresh (dom (heap w)) in
       ((Slice p 0 3, None),
        {| heap := <[p := bytes_of_string "qux"]> (heap w);
           clock := clock w; logs := logs w |});
     peer_Delete := λ _ _ w, ((true, None), w) |}.

Definition answering_picker : PeerPicker :=
  {| PickPeer := λ _ w, ((Some answering_peer, true, false), w) |}.

(** A world with one buffer holding "bar", and the group whose store
    holds it under the key "foo". *)
Definition world1 : World :=
  {| heap := {[ 0%nat := bytes_of_string "bar" ]}; clock := 100; logs := [] |}.

Definition group1 : Group (C := bounded.t) :=
  with_cache group0
    (bounded.add "foo" {| b := Slice 0 0 3 |} (mainCache group0)).

(** A registry that holds [group0] under its name. *)
Definition registry1 : Package (C := bounded.t) :=
  {| groups := {[ "scores" := 0%nat ]}; objects := {[ 0%nat := group0 ]} |}.

End fixtures.
End lc_cache.

(** * Properties of the hash ring *)

Section search.
Import Go.

Lemma midpoint_bounds i j : (i < j)%nat → (i ≤ (i + j) / 2 < j)%nat.
Proof.
  intros Hij. split.
  - apply Nat.div_le_lower_bound; lia.
  - apply Nat.Div0.div_lt_upper_bound; lia.
Qed.

(** The loop of [sort.Search] ends before its fuel does: more fuel than
    [j - i] changes nothing. *)
Lemma search_loop_fuel f fuel1 fuel2 i j :
  (j - i ≤ fuel1)%nat → (j - i ≤ fuel2)%nat →
  search_loop fuel1 f i j = search_loop fuel2 f i j.
Proof.
  revert fuel2 i j. induction fuel1 as [|n IH]; intros [|k] i j H1 H2; cbn [search_loop];
    destruct (decide (i < j)%nat) as [Hlt|Hge]; try done; try lia.
  pose proof (midpoint_bounds i j Hlt).
  destruct (f _); apply IH; lia.
Qed.

Lemma search_loop_bounds f fuel i j :
  (i ≤ j)%nat → (i ≤ search_loop fuel f i j ≤ j)%nat.
Proof.
  revert i j. induction fuel as [|n IH]; intros i j Hij; cbn [search_loop]; [lia|].
  case_decide; [|lia].
  pose proof (midpoint_bounds i j ltac:(done)) as Hh.
  destruct (f _).
  - specialize (IH i ((i + j) / 2)%nat). lia.
  - specialize (IH ((i + j) / 2 + 1)%nat j). lia.
Qed.

Lemma Search_le n f : (Search n f ≤ n)%nat.
Proof. unfold Search. pose proof (search_loop_bounds f n 0 n). lia. Qed.

(** On a predicate that is false below [i] and true from [j] on, the
    loop returns the point where the predicate turns true. *)
Lemma search_loop_split f n fuel i j :
  (j - i ≤ fuel)%nat → (i ≤ j ≤ n)%nat →
  (∀ a b, (a ≤ b < n)%nat → f a = true → f b = true) →
  (∀ k, (k < i)%nat → f k = false) →
  (∀ k, (j ≤ k < n)%nat → f k = true) →
  let r := search_loop fuel f i j in
  (∀ k, (k < r)%nat → f k = false) ∧ (∀ k, (r ≤ k < n)%nat → f k = true).
Proof.
  intros Hfuel Hij Hmono. revert i j Hfuel Hij.
  induction fuel as [|fuel IH]; intros i j Hfuel Hij Hlo Hhi; cbn [search_loop].
  { split; [done|]. intros k Hk. apply Hhi. lia. }
  case_decide as Hlt.
  2:{ split; [done|]. intros k Hk. apply Hhi. lia. }
  pose proof (midpoint_bounds i j ltac:(done)) as Hh.
  destruct (f ((i + j) / 2)%nat) eqn:Hf.
  - apply IH; [lia | lia | done |].
    intros k Hk. apply (Hmono ((i + j) / 2)%nat); [lia | done].
  - apply IH; [lia | lia | | done].
    intros k Hk. destruct (f k) eqn:Hfk; [|done].
    rewrite <- Hf. symmetry. apply (Hmono k); [lia | done].
Qed.

(** On an ascending slice, [sort.SearchInts] splits the slice into the
    entries below [x] and the entries from [x] on. *)
Lemma SearchInts_sorted (a : list Z) x :
  StronglySorted Z.le a →
  let r := SearchInts a x in
  (r ≤ length a)%nat ∧
  Forall (λ y, y < x) (take r a) ∧ Forall (λ y, x ≤ y) (drop r a).
Proof.
  intros Hs r. split; [apply Search_le|].
  subst r. unfold SearchInts, Search.
  set (r := search_loop _ _ _ _) in *.
  assert (Hidx : ∀ k y, a !! k = Some y → index a k = y).
  { intros k y Hk. unfold index. by apply nth_lookup_Some. }
  destruct (search_loop_split (λ i, bool_decide (x ≤ index a i)) (length a)
              (length a) 0 (length a)) as [Hlo Hhi]; try lia.
  - intros i j Hij Hi. apply bool_decide_eq_true in Hi. apply bool_decide_eq_true.
    destruct (decide (i = j)) as [->|Hne]; [done|].
    destruct (lookup_lt_is_Some_2 a i) as [y Hy]; [lia|].
    destruct (lookup_lt_is_Some_2 a j) as [z Hz]; [lia|].
    rewrite (Hidx _ _ Hy) in Hi. rewrite (Hidx _ _ Hz).
    assert (y ≤ z); [|lia].
    rewrite <- (take_drop (S i) a) in Hs.
    apply (StronglySorted_app_1_elem_of _ _ _ _ _ Hs).
    + apply list_elem_of_lookup. exists i. rewrite lookup_take_lt; [done | lia].
    + apply list_elem_of_lookup. exists (j - S i)%nat. rewrite lookup_drop.
      by replace (S i + (j - S i))%nat with j by lia.
  - split.
    + apply Forall_lookup. intros k y Hk.
      assert (k < r)%nat as Hkr.
      { apply lookup_lt_Some in Hk. rewrite length_take in Hk. lia. }
      rewrite lookup_take_lt in Hk by done.
      specialize (Hlo k Hkr). simpl in Hlo. apply bool_decide_eq_false in Hlo.
      rewrite (Hidx _ _ Hk) in Hlo. lia.
    + apply Forall_lookup. intros k y Hk. rewrite lookup_drop in Hk.
      assert (r + k < length a)%nat as Hkr by (by apply lookup_lt_Some in Hk).
      specialize (Hhi (r + k)%nat). simpl in Hhi.
      rewrite (Hidx _ _ Hk) in Hhi.
      eapply bool_decide_eq_true_1, Hhi. lia.
Qed.

End search.

Section ring_invariants.
Import Go consistenthash.

Lemma StronglySorted_sublist (l1 l2 : list Z) :
  l1 `sublist_of` l2 → StronglySorted Z.le l2 → StronglySorted Z.le l1.
Proof.
  induction 1 as [|x l1 l2 Hsub IH|x l1 l2 Hsub IH]; intros Hs; [done| |].
  - apply StronglySorted_cons in Hs as [Hall Hs].
    apply StronglySorted_cons. split; [|auto].
    apply Forall_forall. intros y Hy. rewrite Forall_forall in Hall.
    apply Hall. by eapply elem_of_sublist.
  - apply StronglySorted_cons in Hs as [_ Hs]. auto.
Qed.

(** The options change neither the ring nor the mapping. *)
Lemma options_keys opts m :
  Forall is_option opts →
  keys (fold_left (λ m opt, opt m) opts m) = keys m ∧
  hashMap (fold_left (λ m opt, opt m) opts m) = hashMap m.
Proof.
  intros Hopts. revert m. induction Hopts as [|o opts Ho _ IH]; intros m; [done|].
  simpl. destruct (IH (o m)) as [-> ->]. by destruct Ho.
Qed.

Lemma New_empty opts :
  Forall is_option opts → keys (New opts) = [] ∧ hashMap (New opts) = ∅.
Proof.
  intros Hopts. unfold New.
  match goal with |- context [fold_left _ opts ?m0] =>
    by destruct (options_keys opts m0 Hopts) as [-> ->] end.
Qed.

Lemma Add_sorted m ks : StronglySorted Z.le (keys (Add m ks)).
Proof. unfold Add, Ints. simpl. apply StronglySorted_merge_sort; apply _. Qed.

Lemma remove_vnode_sorted key m i :
  StronglySorted Z.le (keys m) →
  StronglySorted Z.le (keys (state_of (remove_vnode key m i))).
Proof.
  intros Hs. unfold remove_vnode. case_decide; simpl; [|done].
  replace (_ + 1)%nat with (S (SearchInts (keys m) (vnode m i key))) by lia.
  rewrite <- delete_take_drop.
  eapply StronglySorted_sublist; [apply sublist_delete | done].
Qed.

Lemma remove_loop_sorted key rs m :
  StronglySorted Z.le (keys m) →
  StronglySorted Z.le (keys (state_of (remove_loop key rs m))).
Proof.
  revert m. induction rs as [|i rs IH]; intros m Hs; simpl; [done|].
  pose proof (remove_vnode_sorted key m i Hs) as Hs'.
  destruct (remove_vnode key m i); simpl in *; auto.
Qed.

(** In every ring state the program can build, the ring is ascending. *)
Lemma reachable_sorted m : reachable m → StronglySorted Z.le (keys m).
Proof.
  induction 1 as [opts Hopts|m ks _ _|m key _ IH].
  - destruct (New_empty opts Hopts) as [-> _]. constructor.
  - apply Add_sorted.
  - by apply remove_loop_sorted.
Qed.

(** C4: on every ring state the program can build, [Get] returns the
    empty string when the ring has no entries; otherwise it returns the
    member mapped to the first ring entry that is at least the hash of
    the key, and when every ring entry is below the hash of the key it
    wraps around to the member mapped to the smallest ring entry. *)
Theorem Get_first_at_least_or_wrap m key :
  reachable m →
  let h := hash_of m key in
  (keys m = [] → Get m key = "") ∧
  (∀ i k, keys m !! i = Some k → h ≤ k →
          (∀ j k', (j < i)%nat → keys m !! j = Some k' → k' < h) →
          Get m key = owner m k) ∧
  (keys m ≠ [] → (∀ k, k ∈ keys m → k < h) →
   ∃ k0, head (keys m) = Some k0 ∧ (∀ k, k ∈ keys m → k0 ≤ k) ∧
         Get m key = owner m k0).
Proof.
  intros Hreach h. apply reachable_sorted in Hreach as Hs.
  destruct (SearchInts_sorted (keys m) h Hs) as (Hle & Hlo & Hhi).
  unfold SearchInts in Hle, Hlo, Hhi.
  unfold Get, owner. fold h.
  set (r := Search _ _) in *.
  split; [by intros ->|]. split.
  - intros i k Hi Hk Hbefore.
    pose proof (lookup_lt_Some _ _ _ Hi) as Hlen.
    rewrite decide_False by lia.
    assert (r = i) as ->.
    { destruct (Nat.lt_trichotomy r i) as [Hlt|[->|Hgt]]; [|done|].
      - destruct (lookup_lt_is_Some_2 (keys m) r) as [k' Hk']; [lia|].
        specialize (Hbefore r k' Hlt Hk').
        rewrite Forall_lookup in Hhi. specialize (Hhi 0%nat k').
        rewrite lookup_drop, Nat.add_0_r in Hhi. specialize (Hhi Hk'). lia.
      - rewrite Forall_lookup in Hlo. specialize (Hlo i k).
        rewrite lookup_take_lt in Hlo by done. specialize (Hlo Hi). lia. }
    rewrite Nat.mod_small by done.
    unfold index. by rewrite (nth_lookup_Some _ _ _ _ Hi).
  - intros Hne Hall.
    destruct (keys m) as [|k0 l] eqn:Hkeys; [done|].
    exists k0. split; [done|]. split.
    { intros k Hk. apply StronglySorted_cons in Hs as [Hk0 _].
      rewrite Forall_forall in Hk0.
      apply elem_of_cons in Hk as [->|Hk]; [lia | auto]. }
    rewrite decide_False by (simpl; lia).
    assert (r = length (k0 :: l)) as ->.
    { destruct (decide (r = length (k0 :: l))) as [|Hr]; [done|].
      destruct (lookup_lt_is_Some_2 (k0 :: l) r) as [k' Hk']; [lia|].
      rewrite Forall_lookup in Hhi. specialize (Hhi 0%nat k').
      rewrite lookup_drop, Nat.add_0_r in Hhi. specialize (Hhi Hk').
      assert (k' < h); [|lia]. apply Hall. by eapply list_elem_of_lookup_2. }
    by rewrite Nat.Div0.mod_same.
Qed.

End ring_invariants.


Section ring_add_remove.
Import Go consistenthash.

Lemma lookup_insert_all key hs hm k :
  insert_all key hs hm !! k = if decide (k ∈ hs) then Some key else hm !! k.
Proof.
  unfold insert_all. revert hm. induction hs as [|h hs IH]; intros hm; cbn [fold_left].
  { case_decide as Hin; [by apply elem_of_nil in Hin | done]. }
  rewrite IH.
  destruct (decide (k ∈ hs)) as [Hin|Hnin].
  - rewrite decide_True; [done | by right].
  - destruct (decide (k = h)) as [->|Hne].
    + rewrite decide_True by left. apply lookup_insert_eq.
    + rewrite decide_False by (intros [?|?]%elem_of_cons; done).
      by apply lookup_insert_ne.
Qed.

Lemma lookup_delete_all hs hm k :
  delete_all hs hm !! k = if decide (k ∈ hs) then None else hm !! k.
Proof.
  unfold delete_all. revert hm. induction hs as [|h hs IH]; intros hm; cbn [fold_left].
  { case_decide as Hin; [by apply elem_of_nil in Hin | done]. }
  rewrite IH.
  destruct (decide (k ∈ hs)) as [Hin|Hnin].
  - rewrite decide_True; [done | by right].
  - destruct (decide (k = h)) as [->|Hne].
    + rewrite decide_True by left. apply lookup_delete_eq.
    + rewrite decide_False by (intros [?|?]%elem_of_cons; done).
      by apply lookup_delete_ne.
Qed.

(** The inner loop of [Add] appends the hashes of the member to the ring
    and maps each of them to the member. *)
Lemma add_vnodes_fold key rs m :
  fold_left (add_vnode key) rs m =
  {| hash := hash m; replicas := replicas m;
     keys := keys m ++ ((λ i, vnode m i key) <$> rs);
     hashMap := insert_all key ((λ i, vnode m i key) <$> rs) (hashMap m) |}.
Proof.
  revert m. induction rs as [|i rs IH]; intros m; simpl.
  { rewrite app_nil_r. by destruct m. }
  rewrite IH. unfold add_vnode at 1 2 3 4. simpl.
  by rewrite <- app_assoc.
Qed.

Lemma add_member_eq m key :
  add_member m key =
  {| hash := hash m; replicas := replicas m;
     keys := keys m ++ vnodes m key;
     hashMap := insert_all key (vnodes m key) (hashMap m) |}.
Proof. apply add_vnodes_fold. Qed.

(** One round of the loop of [Remove] on a hash the ring holds: the
    search finds it, and one occurrence of it leaves the ring. *)
Lemma remove_vnode_present key m i :
  StronglySorted Z.le (keys m) → vnode m i key ∈ keys m →
  ∃ ks, remove_vnode key m i =
          Returned tt {| hash := hash m; replicas := replicas m; keys := ks;
                         hashMap := delete (vnode m i key) (hashMap m) |} ∧
        keys m ≡ₚ vnode m i key :: ks ∧ StronglySorted Z.le ks.
Proof.
  intros Hs Hin.
  pose proof (remove_vnode_sorted key m i Hs) as Hs'.
  unfold remove_vnode in *.
  set (h := vnode m i key) in *.
  destruct (SearchInts_sorted (keys m) h Hs) as (Hle & Hlo & Hhi).
  set (r := SearchInts (keys m) h) in *.
  rewrite <- (take_drop r (keys m)) in Hin, Hs.
  apply elem_of_app in Hin as [Hin|Hin].
  { rewrite Forall_forall in Hlo. specialize (Hlo _ Hin). lia. }
  apply StronglySorted_app_1_r in Hs.
  destruct (drop r (keys m)) as [|k rest] eqn:Hdrop; [by apply elem_of_nil in Hin|].
  assert (keys m !! r = Some k) as Hr.
  { rewrite <- (Nat.add_0_r r), <- lookup_drop, Hdrop. done. }
  assert (k = h) as ->.
  { apply Forall_cons in Hhi as [Hhk _].
    apply StronglySorted_cons in Hs as [Hk _]. rewrite Forall_forall in Hk.
    apply elem_of_cons in Hin as [->|Hin]; [done|]. specialize (Hk _ Hin). lia. }
  pose proof (lookup_lt_Some _ _ _ Hr) as Hlen.
  rewrite decide_True in Hs' |- * by lia. simpl in Hs'.
  eexists. split; [done|]. split; [|done].
  replace (r + 1)%nat with (S r) by lia. rewrite <- delete_take_drop.
  by apply delete_Permutation.
Qed.

Lemma remove_loop_present key rs m :
  StronglySorted Z.le (keys m) →
  ((λ i, vnode m i key) <$> rs) ⊆+ keys m →
  ∃ ks, remove_loop key rs m =
          Returned tt {| hash := hash m; replicas := replicas m; keys := ks;
                         hashMap := delete_all ((λ i, vnode m i key) <$> rs) (hashMap m) |} ∧
        keys m ≡ₚ ((λ i, vnode m i key) <$> rs) ++ ks ∧ StronglySorted Z.le ks.
Proof.
  revert m. induction rs as [|i rs IH]; intros m Hs Hsub; simpl.
  { exists (keys m). by destruct m. }
  rewrite fmap_cons in Hsub.
  destruct (remove_vnode_present key m i Hs) as (ks1 & -> & Hperm & Hs1).
  { eapply elem_of_submseteq; [|exact Hsub]. left. }
  rewrite Hperm in Hsub. apply (submseteq_app_inv_l _ _ [_]) in Hsub.
  destruct (IH {| hash := hash m; replicas := replicas m; keys := ks1;
                  hashMap := delete (vnode m i key) (hashMap m) |} Hs1 Hsub)
    as (ks & -> & Hperm' & Hs2).
  exists ks. split; [done|]. split; [|done].
  simpl in Hperm'. rewrite Hperm, Hperm'. done.
Qed.

(** [Remove] after [Add] of one member whose hashes are not keys of the
    mapping beforehand: nothing panics and the ring is as before. *)
Lemma Remove_Add_restores m key :
  StronglySorted Z.le (keys m) →
  (∀ h, h ∈ vnodes m key → hashMap m !! h = None) →
  Remove (Add m [key]) key = Returned tt m.
Proof.
  intros Hs Hfresh. unfold Add. simpl fold_left. rewrite add_member_eq. simpl.
  unfold Remove.
  match goal with |- remove_loop _ _ ?m1 = _ =>
    destruct (remove_loop_present key (replica_range m) m1) as (ks & Heq & Hperm & Hs')
  end.
  { simpl. apply StronglySorted_merge_sort; apply _. }
  { simpl. unfold Ints. rewrite merge_sort_Permutation.
    apply submseteq_inserts_l. done. }
  simpl in Heq, Hperm. unfold replica_range at 1. simpl. fold (replica_range m).
  rewrite Heq. clear Heq.
  unfold Ints in Hperm. rewrite merge_sort_Permutation in Hperm.
  fold (vnodes m key) in Hperm |- *.
  rewrite (Permutation_app_comm (keys m)) in Hperm.
  apply Permutation_app_inv_l in Hperm.
  assert (ks = keys m) as ->.
  { symmetry. by apply (StronglySorted_unique Z.le). }
  change (delete_all _ (insert_all key (vnodes m key) (hashMap m)))
    with (delete_all (vnodes m key) (insert_all key (vnodes m key) (hashMap m))).
  assert (delete_all (vnodes m key) (insert_all key (vnodes m key) (hashMap m))
          = hashMap m) as ->.
  { apply map_eq. intros k. rewrite lookup_delete_all, lookup_insert_all.
    destruct (decide (k ∈ vnodes m key)); [by rewrite Hfresh | done]. }
  by destruct m.
Qed.

(** C5: on a ring state the program can build, when the virtual-node
    hashes of a member are pairwise distinct and none of them is already a
    ring entry or a key of the mapping (no collisions), [Remove] of the
    member right after its [Add] returns normally and leaves the sorted
    ring and the mapping exactly as they were before the [Add]. *)
Theorem Remove_after_Add_restores m key :
  reachable m →
  NoDup (vnodes m key) →
  (∀ h, h ∈ vnodes m key → (h ∉ keys m) ∧ (hashMap m !! h = None)) →
  Remove (Add m [key]) key = Returned tt m ∧
  keys (state_of (Remove (Add m [key]) key)) = keys m ∧
  hashMap (state_of (Remove (Add m [key]) key)) = hashMap m.
Proof.
  intros Hreach _ Hfresh.
  rewrite Remove_Add_restores; [done | by apply reachable_sorted |].
  intros h Hh. by apply Hfresh.
Qed.

End ring_add_remove.


Section ring_balance.
Import Go consistenthash.

Lemma vnodes_length m x : length (vnodes m x) = Z.to_nat (replicas m).
Proof. unfold vnodes, replica_range. by rewrite !length_fmap, length_seq. Qed.

Lemma all_vnodes_length m ms :
  length (all_vnodes m ms) = (length ms * Z.to_nat (replicas m))%nat.
Proof.
  unfold all_vnodes. induction ms as [|x ms IH]; [done|].
  change ((x :: ms) ≫= vnodes m) with (vnodes m x ++ (ms ≫= vnodes m)).
  rewrite length_app, IH, vnodes_length. simpl. lia.
Qed.

Lemma all_vnodes_app m ms ks :
  all_vnodes m (ms ++ ks) = all_vnodes m ms ++ all_vnodes m ks.
Proof. unfold all_vnodes. apply bind_app. Qed.

Lemma elem_of_all_vnodes m ms h :
  h ∈ all_vnodes m ms ↔ ∃ x, h ∈ vnodes m x ∧ x ∈ ms.
Proof. unfold all_vnodes. apply list_elem_of_bind. Qed.

Lemma vnodes_same m0 m x :
  hash m = hash m0 → replicas m = replicas m0 → vnodes m x = vnodes m0 x.
Proof.
  intros Hh Hr. unfold vnodes, replica_range, vnode, hash_of. by rewrite Hh, Hr.
Qed.

Lemma built_add_member m0 ms m x :
  NoDup (all_vnodes m0 (ms ++ [x])) → built m0 ms m →
  built m0 (ms ++ [x]) (add_member m x).
Proof.
  intros Hnd (Hh & Hr & Hkeys & Hmap). rewrite add_member_eq.
  rewrite (vnodes_same m0 m x Hh Hr). unfold built. simpl.
  rewrite all_vnodes_app in Hnd |- *. apply NoDup_app in Hnd as (_ & Hdisj & _).
  assert (all_vnodes m0 [x] = vnodes m0 x) as Hx.
  { unfold all_vnodes. simpl. apply app_nil_r. }
  rewrite Hx in Hdisj |- *.
  split; [done|]. split; [done|]. split; [by rewrite Hkeys|].
  intros y h Hy Hhy. rewrite lookup_insert_all.
  apply elem_of_app in Hy as [Hy|Hy%list_elem_of_singleton].
  - rewrite decide_False; [by apply Hmap|].
    apply Hdisj, elem_of_all_vnodes. eauto.
  - subst y. by rewrite decide_True.
Qed.

Lemma built_add_members m0 ks ms m :
  NoDup (all_vnodes m0 (ms ++ ks)) → built m0 ms m →
  built m0 (ms ++ ks) (fold_left add_member ks m).
Proof.
  revert ms m. induction ks as [|x ks IH]; intros ms m Hnd Hb; simpl.
  { by rewrite app_nil_r. }
  replace (ms ++ x :: ks) with ((ms ++ [x]) ++ ks) in * by by rewrite <- app_assoc.
  apply IH; [done|]. apply built_add_member; [|done].
  rewrite all_vnodes_app in Hnd. by apply NoDup_app in Hnd as (? & _).
Qed.

Lemma built_Add m0 ks ms m :
  NoDup (all_vnodes m0 (ms ++ ks)) → built m0 ms m →
  built m0 (ms ++ ks) (Add m ks).
Proof.
  intros Hnd Hb. destruct (built_add_members m0 ks ms m Hnd Hb) as (? & ? & Hk & ?).
  unfold Add, built. simpl. unfold Ints. by rewrite merge_sort_Permutation.
Qed.

Lemma built_Adds m0 calls ms m :
  NoDup (all_vnodes m0 (ms ++ concat calls)) → built m0 ms m →
  built m0 (ms ++ concat calls) (fold_left Add calls m).
Proof.
  revert ms m. induction calls as [|ks calls IH]; intros ms m Hnd Hb; simpl in *.
  { by rewrite app_nil_r. }
  rewrite app_assoc in Hnd |- *. apply IH; [done|]. apply built_Add; [|done].
  rewrite all_vnodes_app in Hnd. by apply NoDup_app in Hnd as (? & _).
Qed.

Lemma built_New opts :
  Forall is_option opts → built (New opts) [] (New opts).
Proof.
  intros Hopts. destruct (New_empty opts Hopts) as [Hk _].
  unfold built. rewrite Hk. split; [done|]. split; [done|]. split; [done|].
  intros x h Hx. by apply elem_of_nil in Hx.
Qed.

(** The entries that map to a member are exactly its own hashes. *)
Lemma built_entries_other m0 ms m x l :
  built m0 ms m → l ⊆ ms → x ∉ l →
  filter (λ k, owner m k = x) (all_vnodes m0 l) = [].
Proof.
  intros (_ & _ & _ & Hmap) Hsub Hx.
  destruct (filter _ _) as [|k rest] eqn:Hf; [done|].
  assert (k ∈ filter (λ k, owner m k = x) (all_vnodes m0 l)) as Hk
    by (rewrite Hf; left).
  apply list_elem_of_filter in Hk as [Hown Hk].
  apply elem_of_all_vnodes in Hk as (y & Hky & Hy).
  unfold owner in Hown. rewrite (Hmap y k) in Hown by auto.
  simpl in Hown. by subst.
Qed.

Lemma built_entries_own m0 ms m x :
  built m0 ms m → x ∈ ms →
  filter (λ k, owner m k = x) (vnodes m0 x) = vnodes m0 x.
Proof.
  intros (_ & _ & _ & Hmap) Hx.
  assert (Forall (λ k, owner m k = x) (vnodes m0 x)) as Hall.
  { apply Forall_forall. intros k Hk. unfold owner. by rewrite (Hmap x k). }
  induction Hall as [|k l Hk _ IH]; [done|].
  rewrite filter_cons_True by done. by rewrite IH.
Qed.

Lemma built_entries m0 ms m x l :
  built m0 ms m → l ⊆ ms → NoDup l → x ∈ l →
  length (filter (λ k, owner m k = x) (all_vnodes m0 l)) = Z.to_nat (replicas m0).
Proof.
  intros Hb. induction l as [|y l IH]; intros Hsub Hnd Hx.
  { by apply elem_of_nil in Hx. }
  change (all_vnodes m0 (y :: l)) with (vnodes m0 y ++ all_vnodes m0 l).
  rewrite filter_app, length_app.
  apply NoDup_cons in Hnd as [Hy Hnd].
  assert (l ⊆ ms) as Hsub' by (intros z Hz; apply Hsub; by right).
  assert (y ∈ ms) as Hyms by (apply Hsub; left).
  destruct (decide (x = y)) as [->|Hne].
  - rewrite (built_entries_own m0 ms m y Hb Hyms).
    rewrite (built_entries_other m0 ms m y l Hb Hsub' Hy).
    rewrite vnodes_length. simpl. lia.
  - apply elem_of_cons in Hx as [Hx|Hx]; [done|].
    rewrite (IH Hsub' Hnd Hx).
    assert (filter (λ k, owner m k = x) (vnodes m0 y) = []) as ->; [|done].
    assert (all_vnodes m0 [y] = vnodes m0 y) as <-.
    { unfold all_vnodes. simpl. apply app_nil_r. }
    apply (built_entries_other m0 ms m x [y] Hb).
    + by intros z ->%list_elem_of_singleton.
    + by intros ?%list_elem_of_singleton.
Qed.

(** On a ring with entries, [Get] returns the member mapped to one of
    them. *)
Lemma Get_owner_of_entry m key :
  keys m ≠ [] → ∃ k, k ∈ keys m ∧ Get m key = owner m k.
Proof.
  intros Hne. unfold Get, owner.
  assert (length (keys m) ≠ 0%nat) as Hlen by (by destruct (keys m)).
  rewrite decide_False by done.
  set (idx := (_ `mod` _)%nat).
  assert (idx < length (keys m))%nat as Hidx by (by apply Nat.mod_upper_bound).
  destruct (lookup_lt_is_Some_2 (keys m) idx Hidx) as [k Hk].
  exists k. split; [by eapply list_elem_of_lookup_2|].
  unfold index. by rewrite (nth_lookup_Some _ _ _ _ Hk).
Qed.

(** The ring after any run of [Add] calls on a new ring. *)
Lemma Adds_balance opts calls :
  Forall is_option opts →
  let m0 := New opts in
  let m := fold_left Add calls m0 in
  let ms := concat calls in
  NoDup ms → NoDup (all_vnodes m0 ms) →
  length (keys m) = (length ms * Z.to_nat (replicas m0))%nat ∧
  (∀ x, x ∈ ms → length (entries_of m x) = Z.to_nat (replicas m0)) ∧
  (keys m ≠ [] → ∀ key, Get m key ∈ ms).
Proof.
  intros Hopts m0 m ms Hnd Hcoll.
  pose proof (built_Adds m0 calls [] m0 Hcoll (built_New opts Hopts)) as Hb.
  simpl in Hb. fold m ms in Hb.
  pose proof Hb as (_ & _ & Hkeys & Hmap).
  split; [by rewrite Hkeys, all_vnodes_length|]. split.
  - intros x Hx. unfold entries_of. rewrite Hkeys.
    by apply (built_entries m0 ms m x ms Hb).
  - intros Hne key. destruct (Get_owner_of_entry m key Hne) as (k & Hk & ->).
    rewrite Hkeys in Hk. apply elem_of_all_vnodes in Hk as (x & Hkx & Hx).
    unfold owner. by rewrite (Hmap x k).
Qed.

End ring_balance.

Section ring_claims.
Import Go consistenthash.

Lemma Get_first_at_least_or_wrap_witness :
  reachable (Add (New [Replicas 3]) ["a"; "b"]) ∧
  Get (Add (New [Replicas 3]) ["a"; "b"]) "k" = "b".
Proof.
  assert (reachable (Add (New [Replicas 3]) ["a"; "b"])) as Hr.
  { apply reach_Add, reach_New. repeat constructor. }
  split; [exact Hr|].
  destruct (Get_first_at_least_or_wrap _ "k" Hr) as (_ & Hfirst & _).
  rewrite (Hfirst 0%nat 253052666).
  - reflexivity.
  - reflexivity.
  - vm_compute. discriminate.
  - intros j k' Hj. lia.
Defined.

(** One round of the loop of [Remove] on a hash the ring does not hold:
    either every entry is below the hash and the round panics, or the
    round removes the first entry above the hash, which belongs to
    whoever added it. *)
Lemma remove_vnode_absent key m i :
  StronglySorted Z.le (keys m) → vnode m i key ∉ keys m →
  let r := SearchInts (keys m) (vnode m i key) in
  (Forall (λ k, k < vnode m i key) (keys m) ∧
   remove_vnode key m i =
   Panicked (SliceBoundsOutOfRange (r + 1) (length (keys m))) m) ∨
  (∃ k, keys m !! r = Some k ∧ vnode m i key < k ∧
        keys (state_of (remove_vnode key m i)) = delete r (keys m) ∧
        remove_vnode key m i = Returned tt (state_of (remove_vnode key m i))).
Proof.
  intros Hs Hnin r. unfold remove_vnode. fold r.
  destruct (SearchInts_sorted (keys m) (vnode m i key) Hs) as (Hle & Hlo & Hhi).
  fold r in Hle, Hlo, Hhi.
  destruct (decide (r + 1 ≤ length (keys m))%nat) as [Hlt|Hge].
  - right. destruct (lookup_lt_is_Some_2 (keys m) r) as [k Hk]; [lia|].
    exists k. split; [done|]. split.
    + rewrite Forall_lookup in Hhi. specialize (Hhi 0%nat k).
      rewrite lookup_drop, Nat.add_0_r in Hhi. specialize (Hhi Hk).
      assert (k ≠ vnode m i key); [|lia].
      intros ->. by apply list_elem_of_lookup_2 in Hk.
    + simpl. split; [|done].
      replace (r + 1)%nat with (S r) by lia. by rewrite <- delete_take_drop.
  - left. split; [|done].
    assert (r = length (keys m)) as Hr by lia.
    rewrite Hr, firstn_all in Hlo. done.
Qed.

(** C1: [Remove] does not tolerate a computed hash that is absent from
    the ring.  On the empty ring ([New()], member never added) the first
    round panics with a slice bound out of range.  On the ring that holds
    the one entry of member "a" (one replica), [Remove("b")] computes a
    hash that is absent and below the entry of "a": it returns normally
    but has removed the entry of "a" from the ring in its place, while
    the mapping still holds that entry. *)
Theorem Remove_absent_hash_not_tolerated :
  vnodes (New []) "a" ≠ [] ∧
  (∃ m, Remove (New []) "a" = Panicked (SliceBoundsOutOfRange 1 0) m ∧ keys m = []) ∧
  let ring_a := Add (New [Replicas 1]) ["a"] in
  keys ring_a = [2754246082] ∧ owner ring_a 2754246082 = "a" ∧
  vnodes ring_a "b" = [1025713272] ∧
  ∃ m, Remove ring_a "b" = Returned tt m ∧
       keys m = [] ∧ hashMap m !! 2754246082 = Some "a" ∧ Get m "k" = "".
Proof.
  split; [by vm_compute|]. split.
  - eexists. split; [reflexivity|]. reflexivity.
  - cbv zeta. split; [by vm_compute|]. split; [by vm_compute|].
    split; [by vm_compute|].
    eexists. split; [reflexivity|]. split; [by vm_compute|].
    split; by vm_compute.
Qed.

Lemma Remove_after_Add_restores_witness :
  let ring_b := Add (New [Replicas 2]) ["b"] in
  keys (state_of (Remove (Add ring_b ["a"]) "a")) = keys ring_b.
Proof.
  cbv zeta.
  refine (proj1 (proj2 (Remove_after_Add_restores
                          (Add (New [Replicas 2]) ["b"]) "a" _ _ _))).
  - apply reach_Add, reach_New. repeat constructor.
  - apply (bool_decide_unpack _). by vm_compute.
  - apply Forall_forall. apply (bool_decide_unpack _). by vm_compute.
Defined.

(** C6, as amended: for every run of [Add] calls on a new ring whose
    replica count is at least 1, introducing distinct members without hash
    collisions, the ring holds members times replicas entries, each member
    has exactly replicas entries that map to it, and, once a member has
    been added, [Get] on any key returns one of the added members (so its
    result is not the empty string unless the empty string was added as a
    member). *)
Theorem Add_balance opts calls :
  Forall is_option opts →
  let m0 := New opts in
  let m := fold_left Add calls m0 in
  let ms := concat calls in
  NoDup ms → NoDup (all_vnodes m0 ms) → 1 ≤ replicas m0 →
  Z.of_nat (length (keys m)) = Z.of_nat (length ms) * replicas m0 ∧
  (∀ x, x ∈ ms → Z.of_nat (length (entries_of m x)) = replicas m0) ∧
  (ms ≠ [] → ∀ key, Get m key ∈ ms ∧ ("" ∉ ms → Get m key ≠ "")).
Proof.
  intros Hopts m0 m ms Hnd Hcoll Hr.
  destruct (Adds_balance opts calls Hopts Hnd Hcoll) as (Hlen & Hcount & Hget).
  fold m0 m ms in Hlen, Hcount, Hget.
  split; [rewrite Hlen; lia|]. split.
  - intros x Hx. rewrite (Hcount x Hx). lia.
  - intros Hms key.
    assert (Get m key ∈ ms) as Hin.
    { apply Hget. intros Hk. rewrite Hk in Hlen. simpl in Hlen.
      destruct ms; [done | simpl in Hlen; lia]. }
    split; [done|]. intros Hempty Heq. by rewrite Heq in Hin.
Qed.

Lemma Add_balance_witness :
  let m := fold_left Add [["a"]; ["b"; "c"]] (New [Replicas 2]) in
  Z.of_nat (length (keys m)) = 3 * 2 ∧
  Z.of_nat (length (entries_of m "b")) = 2 ∧
  Get m "k" ∈ ["a"; "b"; "c"].
Proof.
  cbv zeta.
  destruct (Add_balance [Replicas 2] [["a"]; ["b"; "c"]]) as (Hlen & Hcount & Hget).
  - repeat constructor.
  - apply (bool_decide_unpack _). by vm_compute.
  - apply (bool_decide_unpack _). by vm_compute.
  - by vm_compute.
  - split; [exact Hlen|]. split.
    + apply Hcount. apply (bool_decide_unpack _). by vm_compute.
    + destruct (Hget ltac:(done) "k") as [Hin _]. exact Hin.
Defined.

(** C6 as stated fails when the replica count is not positive: with
    [Replicas(0)], [Add("a")] inserts nothing, and [Get] returns the empty
    string although a member has been added. *)
Lemma Add_balance_zero_replicas :
  ¬ (∀ opts calls,
       Forall is_option opts →
       let m0 := New opts in
       let m := fold_left Add calls m0 in
       let ms := concat calls in
       NoDup ms → NoDup (all_vnodes m0 ms) → ms ≠ [] →
       ∀ key, Get m key ∈ ms).
Proof.
  intros Hclaim.
  specialize (Hclaim [Replicas 0] [["a"]]). cbv zeta in Hclaim.
  assert (Get (fold_left Add [["a"]] (New [Replicas 0])) "k" ∈ concat [["a"]]) as Hin.
  { apply Hclaim; [repeat constructor | | | done].
    - apply (bool_decide_unpack _). by vm_compute.
    - apply (bool_decide_unpack _). by vm_compute. }
  revert Hin. apply (bool_decide_unpack _). by vm_compute.
Qed.

End ring_claims.

(** * Properties of the cache group *)

Section group_claims.
Import Go lc_cache.
Context {C : Type} `{Store C}.


(** C3: [Delete] of the empty key returns the error "key is required"
    together with the flag [true], and leaves the group, its local store
    included, and the world as they were. *)
Theorem Delete_empty_key (g : Group) (w : World) :
  Delete "" (g, w) = Returned (true, Some InvalidKey) (g, w).
Proof. reflexivity. Qed.

(** [getLocally], read off its three ways out: a hit in the local
    store, a loader that finds nothing, a loader that finds a value. *)
Lemma getLocally_unfold (g : Group) (w : World) key :
  getLocally key (g, w) =
  match cache_get key (clock w) (mainCache g) with
  | (Some v, c1) =>
      Returned (v, None) (with_cache g c1, snd (Println "[Geek-Cache] hit" w))
  | (None, c1) =>
      match getter g key w with
      | ((bytes, false, _), w1) =>
          Returned (ByteView_zero, Some NotFound) (with_cache g c1, w1)
      | ((bytes, true, expirationTime), w1) =>
          let bw := {| b := fst (cloneBytes bytes w1) |} in
          Returned (bw, None)
            (with_cache g
               (if IsZero expirationTime then cache_add key bw c1
                else cache_addWithExpiration key bw expirationTime c1),
             snd (cloneBytes bytes w1))
      end
  end.
Proof.
  unfold getLocally, bind, ret, this, call, on_cache, Errorf. cbn [fst snd].
  destruct (cache_get key (clock w) (mainCache g)) as [[v|] c1]; [done|].
  cbn [fst snd with_cache getter mainCache clock].
  destruct (getter g key w) as [[[bytes [|]] expirationTime] w1]; [|done].
  cbn [negb fst snd].
  destruct (cloneBytes bytes w1) as [c w2].
  by destruct (IsZero expirationTime).
Qed.

(** [getLocally] neither reads nor writes the picker. *)
Lemma getLocally_peers (g : Group) (w : World) key ps :
  getLocally key (with_peers g ps, w) =
  seen_with_peers ps (getLocally key (g, w)).
Proof.
  rewrite !getLocally_unfold. cbn [with_peers mainCache getter].
  destruct (cache_get key (clock w) (mainCache g)) as [[v|] c1]; [done|].
  by destruct (getter g key w) as [[[bytes [|]] expirationTime] w1].
Qed.

(** An error of [getLocally] comes with the zero [ByteView], so the
    test on [err] that ends [load] hands its result on unchanged. *)
Lemma load_fallthrough (g : Group) (w : World) key :
  bind (getLocally key)
       (λ '(v, err), match err with
                     | None => ret (v, None)
                     | Some e => ret (ByteView_zero, Some e)
                     end) (g, w)
  = getLocally key (g, w).
Proof.
  unfold bind. rewrite getLocally_unfold.
  destruct (cache_get key (clock w) (mainCache g)) as [[v|] c1]; [done|].
  by destruct (getter g key w) as [[[bytes [|]] expirationTime] w1].
Qed.

(** [load], in terms of the two parts of the function it hands to the
    deduplicator. *)
Lemma load_unfold (g : Group) (w : World) key :
  load key (g, w) =
  match from_peers key (g, w) with
  | Returned (Some v) s => Returned (v, None) s
  | Returned None s => getLocally key s
  | Panicked p s => Panicked p s
  end.
Proof.
  unfold load, Do, bind at 1 2.
  destruct (from_peers key (g, w)) as [[v|] [g1 w1]|p s]; [done| |done].
  apply (load_fallthrough g1 w1 key).
Qed.

(** The head of the function handed to the deduplicator, case by case. *)
Lemma from_peers_unfold (g : Group) (w : World) key :
  from_peers key (g, w) =
  match peers g with
  | None => Returned None (g, w)
  | Some picker =>
      match PickPeer picker key w with
      | ((_, false, _), w1) => Returned None (g, w1)
      | ((_, true, true), w1) =>
          match cache_get key (clock w1) (mainCache g) with
          | (Some v, c1) =>
              Returned (Some v)
                (with_cache g c1, snd (Println "[Geek-Cache] hit" w1))
          | (None, c1) => Returned None (with_cache g c1, w1)
          end
      | ((None, true, false), w1) => Panicked NilDereference (g, w1)
      | ((Some p, true, false), w1) =>
          match peer_Get p (name g) key w1 with
          | ((bytes, None), w2) =>
              Returned (Some {| b := fst (cloneBytes bytes w2) |})
                (g, snd (cloneBytes bytes w2))
          | ((_, Some e), w2) =>
              Returned None
                (g, snd (Println ("[Geek-Cache] Failed to get from peer " +:+ e) w2))
          end
      end
  end.
Proof.
  unfold from_peers, getFromPeer, bind, ret, this, call, on_cache, deref, throw.
  simpl. destruct (peers g) as [picker|]; [|done]. simpl.
  destruct (PickPeer picker key w) as [[[[p|] [|]] [|]] w1]; simpl; try done.
  all: try by destruct (cache_get key (clock w1) (mainCache g)) as [[v|] c1].
  by destruct (peer_Get p (name g) key w1) as [[bytes [e|]] w2].
Qed.

(** C2: [Get] returns an error in exactly two cases.  On the empty key
    it returns "key is required" and touches nothing.  On any other key
    it returns an error exactly when control falls through the peer part
    to the local load, the local store misses and the loader reports
    that it found nothing; the error is then "data not found".  A failed
    remote get is only logged: [Get] goes on with the local load, whose
    result is the result of [Get]. *)
Theorem Get_errors (g : Group) (w : World) key :
  (key = "" → Get key (g, w) = Returned (ByteView_zero, Some InvalidKey) (g, w)) ∧
  (key ≠ "" →
   ∀ v e s,
     Get key (g, w) = Returned (v, Some e) s ↔
     v = ByteView_zero ∧ e = NotFound ∧
     ∃ g1 w1 c1 bytes expirationTime w2,
       from_peers key (g, w) = Returned None (g1, w1) ∧
       cache_get key (clock w1) (mainCache g1) = (None, c1) ∧
       getter g1 key w1 = ((bytes, false, expirationTime), w2) ∧
       s = (with_cache g1 c1, w2)) ∧
  (key ≠ "" →
   ∀ picker p w1 bytes e w2,
     peers g = Some picker →
     PickPeer picker key w = ((Some p, true, false), w1) →
     peer_Get p (name g) key w1 = ((bytes, Some e), w2) →
     Get key (g, w) =
     getLocally key
       (g, snd (Println ("[Geek-Cache] Failed to get from peer " +:+ e) w2))).
Proof.
  split; [by intros ->|]. split.
  - intros Hkey v e s. unfold Get. rewrite decide_False by done.
    rewrite load_unfold.
    destruct (from_peers key (g, w)) as [[v0|] [g1 w1]|p s0] eqn:Hpeers.
    + split; [done|]. by intros (_ & _ & ? & ? & ? & ? & ? & ? & [=] & _).
    + rewrite getLocally_unfold.
      destruct (cache_get key (clock w1) (mainCache g1)) as [[v1|] c1] eqn:Hget.
      { split; [done|]. intros (_ & _ & ? & ? & ? & ? & ? & ? & [= <- <-] & Hc & _).
        rewrite Hget in Hc. done. }
      destruct (getter g1 key w1) as [[[bytes [|]] expirationTime] w2] eqn:Hload.
      { split; [done|].
        intros (_ & _ & ? & ? & ? & ? & ? & ? & [= <- <-] & _ & Hl & _).
        rewrite Hload in Hl. done. }
      split.
      * intros [= <- <- <-]. split; [done|]. split; [done|].
        by exists g1, w1, c1, bytes, expirationTime, w2.
      * intros (-> & -> & g1' & w1' & c1' & ? & ? & w2' & [= <- <-] & Hc & Hl & ->).
        rewrite Hget in Hc. rewrite Hload in Hl. by simplify_eq.
    + split; [done|]. by intros (_ & _ & ? & ? & ? & ? & ? & ? & [=] & _).
  - intros Hkey picker p w1 bytes e w2 Hpeers Hpick Hpeer.
    unfold Get. rewrite decide_False by done.
    rewrite load_unfold, from_peers_unfold, Hpeers, Hpick, Hpeer. done.
Qed.

(** Writes through a slice leave every other buffer alone. *)
Lemma slice_stores_other (h : heap_t) s writes h' (p : loc) :
  slice_stores h s writes = Some h' →
  (∀ q off n, s = Slice q off n → q ≠ p) →
  h' !! p = h !! p.
Proof.
  intros Hw Hs. revert h Hw. induction writes as [|[i x] rest IH]; intros h Hw.
  { by injection Hw as <-. }
  simpl in Hw. destruct (slice_store h s i x) as [h1|] eqn:Hst; [|done].
  simpl in Hw. rewrite (IH h1 Hw).
  destruct s as [|q off n]; [done|]. simpl in Hst.
  case_decide; [|done]. destruct (h !! q) as [buf|]; [|done].
  injection Hst as <-. apply lookup_insert_ne. by eapply Hs.
Qed.

(** C7: when the local load reaches the loader and the loader finds a
    value, [getLocally] returns, without error, a [ByteView] over a
    buffer of its own that holds the bytes the loader returned: writes
    made afterwards through the slice of the loader change neither the
    returned nor the cached value, which are one and the same.  The entry
    is stored with [addWithExpiration] and the given time when that time
    is not zero, and with [add] when it is. *)
Theorem getLocally_clones_and_stores (g : Group) (w : World) key
    c1 bytes expirationTime w1 :
  cache_get key (clock w) (mainCache g) = (None, c1) →
  getter g key w = ((bytes, true, expirationTime), w1) →
  valid_slice (heap w1) bytes →
  ∃ bw w',
    getLocally key (g, w) =
      Returned (bw, None)
        (with_cache g
           (if IsZero expirationTime then cache_add key bw c1
            else cache_addWithExpiration key bw expirationTime c1),
         w') ∧
    slice_bytes (heap w') (b bw) = slice_bytes (heap w1) bytes ∧
    ∀ writes h',
      slice_stores (heap w') bytes writes = Some h' →
      slice_bytes h' (b bw) = slice_bytes (heap w1) bytes.
Proof.
  intros Hget Hload Hvalid.
  exists {| b := fst (cloneBytes bytes w1) |}, (snd (cloneBytes bytes w1)).
  split; [by rewrite getLocally_unfold, Hget, Hload|].
  unfold cloneBytes. cbn [fst snd heap b].
  set (data := slice_bytes (heap w1) bytes).
  set (p := fresh (dom (heap w1))).
  assert (∀ h : heap_t, h !! p = Some data →
               slice_bytes h (Slice p 0 (length data)) = data) as Hread.
  { intros h Hp. unfold slice_bytes. rewrite Hp. cbn [default].
    by rewrite drop_0, firstn_all. }
  split; [apply Hread, lookup_insert_eq|].
  intros writes h' Hw. apply Hread.
  rewrite (slice_stores_other _ _ _ _ p Hw); [apply lookup_insert_eq|].
  intros q off n ->. destruct Hvalid as (buf & Hq & _).
  intros ->. apply (is_fresh (dom (heap w1))). fold p.
  apply elem_of_dom. eauto.
Qed.

(** C8, as amended: on a key that is not empty, [Delete] without a
    picker deletes from the local store and returns whether something was
    removed; when the picker cannot resolve the owner it returns [false]
    and no error; when the owner is this process it deletes from the
    local store; when the owner is a remote peer it calls the remote
    delete of that peer for the name of the group and the key, leaves the
    local store alone, and returns the error of the peer as it is,
    together with the flag of the peer when there is no error and with
    [false] when there is one. *)
Theorem Delete_cases (g : Group) (w : World) key :
  key ≠ "" →
  (∀ removed c',
     peers g = None → cache_delete key (mainCache g) = (removed, c') →
     Delete key (g, w) = Returned (removed, None) (with_cache g c', w)) ∧
  (∀ picker peer isSelf w1,
     peers g = Some picker →
     PickPeer picker key w = ((peer, false, isSelf), w1) →
     Delete key (g, w) = Returned (false, None) (g, w1)) ∧
  (∀ picker peer w1 removed c',
     peers g = Some picker →
     PickPeer picker key w = ((peer, true, true), w1) →
     cache_delete key (mainCache g) = (removed, c') →
     Delete key (g, w) = Returned (removed, None) (with_cache g c', w1)) ∧
  (∀ picker p w1 success err w2,
     peers g = Some picker →
     PickPeer picker key w = ((Some p, true, false), w1) →
     peer_Delete p (name g) key w1 = ((success, err), w2) →
     Delete key (g, w) =
     Returned (match err with Some _ => false | None => success end, err) (g, w2)).
Proof.
  intros Hkey.
  unfold Delete, deleteFromPeer, bind, ret, this, call, on_cache, deref.
  rewrite decide_False by done. simpl.
  split; [|split; [|split]].
  - intros removed c' -> Hdel. simpl. by rewrite Hdel.
  - intros picker peer isSelf w1 -> Hpick. simpl. by rewrite Hpick.
  - intros picker peer w1 removed c' -> Hpick Hdel. simpl. rewrite Hpick. simpl.
    by rewrite Hdel.
  - intros picker p w1 success err w2 -> Hpick Hdel. simpl. rewrite Hpick. simpl.
    rewrite Hdel. by destruct err.
Qed.

(** C10: on a key that is not empty, when a picker is configured and
    reports that no owner can be determined, [Get] does not fail on that
    account: from the world the picker left it checks the local store
    and returns a value found there; on a miss it calls the loader,
    returns "data not found" when the loader finds nothing, and otherwise
    stores and returns the cloned value.  This outcome is the one of
    [getLocally], and the one [Get] has on the same group without a
    picker. *)
Theorem Get_unresolved_owner_is_local (g : Group) (w : World) key
    picker peer isSelf w1 :
  key ≠ "" →
  peers g = Some picker →
  PickPeer picker key w = ((peer, false, isSelf), w1) →
  Get key (g, w) =
    match cache_get key (clock w1) (mainCache g) with
    | (Some v, c1) =>
        Returned (v, None)
          (with_cache g c1, snd (Println "[Geek-Cache] hit" w1))
    | (None, c1) =>
        match getter g key w1 with
        | ((bytes, false, _), w2) =>
            Returned (ByteView_zero, Some NotFound) (with_cache g c1, w2)
        | ((bytes, true, expirationTime), w2) =>
            let bw := {| b := fst (cloneBytes bytes w2) |} in
            Returned (bw, None)
              (with_cache g
                 (if IsZero expirationTime then cache_add key bw c1
                  else cache_addWithExpiration key bw expirationTime c1),
               snd (cloneBytes bytes w2))
        end
    end ∧
  Get key (g, w) = getLocally key (g, w1) ∧
  Get key (with_peers g None, w1) = getLocally key (with_peers g None, w1) ∧
  Get key (g, w) = seen_with_peers (Some picker) (Get key (with_peers g None, w1)).
Proof.
  intros Hkey Hpeers Hpick. rewrite <- getLocally_unfold.
  unfold Get. rewrite decide_False by done.
  rewrite !load_unfold, !from_peers_unfold, Hpeers, Hpick. cbn [with_peers peers].
  split; [by destruct peer, isSelf|].
  split; [by destruct peer, isSelf|]. split; [done|].
  rewrite getLocally_peers.
  assert (seen_with_peers (Some picker) (seen_with_peers None (getLocally key (g, w1)))
          = getLocally key (g, w1)) as ->; [|by destruct peer, isSelf].
  pose proof (getLocally_peers g w1 key (peers g)) as Hsame.
  assert (with_peers g (peers g) = g) as Hg by (by destruct g).
  rewrite Hg, Hpeers in Hsame. rewrite Hsame at 2.
  by destruct (getLocally key (g, w1)).
Qed.

(** No exported method changes a picker that is set. *)
Lemma Get_keeps_peers (g : Group) (w : World) key :
  peers (fst (state_of (Get key (g, w)))) = peers g.
Proof.
  unfold Get. case_decide; [done|].
  rewrite load_unfold, from_peers_unfold.
  assert (∀ g' w', peers (fst (state_of (getLocally key (g', w')))) = peers g')
    as Hlocal.
  { intros g' w'. rewrite getLocally_unfold.
    destruct (cache_get key (clock w') (mainCache g')) as [[v|] c1]; [done|].
    by destruct (getter g' key w') as [[[bytes [|]] expirationTime] w1']. }
  destruct (peers g) as [picker|] eqn:Hpeers; [|by rewrite Hlocal].
  destruct (PickPeer picker key w) as [[[[p|] [|]] [|]] w1];
    rewrite ?Hlocal; try done.
  - destruct (cache_get key (clock w1) (mainCache g)) as [[v|] c1];
      by rewrite ?Hlocal.
  - destruct (peer_Get p (name g) key w1) as [[bytes [e|]] w2];
      by rewrite ?Hlocal.
  - destruct (cache_get key (clock w1) (mainCache g)) as [[v|] c1];
      by rewrite ?Hlocal.
Qed.

Lemma Delete_keeps_peers (g : Group) (w : World) key :
  peers (fst (state_of (Delete key (g, w)))) = peers g.
Proof.
  unfold Delete, deleteFromPeer, bind, ret, this, call, on_cache, deref, throw.
  case_decide; [done|]. simpl.
  destruct (peers g) as [picker|] eqn:Hpeers; simpl.
  2:{ by destruct (cache_delete key (mainCache g)). }
  destruct (PickPeer picker key w) as [[[[p|] [|]] [|]] w1]; simpl; try done.
  - by destruct (cache_delete key (mainCache g)).
  - by destruct (peer_Delete p (name g) key w1) as [[success [e|]] w2].
  - by destruct (cache_delete key (mainCache g)).
Qed.

Lemma group_step_keeps_peers (g g' : Group (C:=C)) picker :
  group_step g g' → peers g = Some picker → peers g' = Some picker.
Proof.
  intros [ps g0 w|key g0 w|key g0 w] Hp.
  - unfold RegisterPeers, bind, this. simpl. by rewrite Hp.
  - by rewrite Get_keeps_peers.
  - by rewrite Delete_keeps_peers.
Qed.

(** C9, as amended: [NewGroup] without a loader panics and leaves the
    registry as it was; [RegisterPeers] on a group that has a picker
    panics and leaves the group as it was; no exported method changes a
    picker that is set; hence along any sequence of calls on a group, at
    most one call changes its picker. *)
Theorem misconfiguration_aborts :
  (∀ name cacheBytes (pk : Package (C:=C)),
     NewGroup name cacheBytes None pk = Panicked (PanicMsg "nil Getter") pk) ∧
  (∀ (g : Group (C:=C)) w picker ps,
     peers g = Some picker →
     RegisterPeers ps (g, w) =
     Panicked (PanicMsg "RegisterPeerPicker called multiple times") (g, w)) ∧
  (∀ (g g' : Group (C:=C)) picker,
     group_step g g' → peers g = Some picker → peers g' = Some picker) ∧
  (∀ g1 g2 g3 g4 : Group (C:=C),
     group_step g1 g2 → rtc group_step g2 g3 → group_step g3 g4 →
     peers g1 ≠ peers g2 → peers g3 = peers g4).
Proof.
  split; [done|]. split; [|split].
  - intros g w picker ps Hp. unfold RegisterPeers, bind, this. simpl. by rewrite Hp.
  - apply group_step_keeps_peers.
  - intros g1 g2 g3 g4 H12 H23 H34 Hchange.
    destruct (peers g2) as [picker|] eqn:Hp2.
    2:{ destruct (peers g1) as [p1|] eqn:Hp1; [|done].
        apply (group_step_keeps_peers _ _ p1) in H12; [congruence | done]. }
    assert (peers g3 = Some picker) as Hp3.
    { clear H12 H34 Hchange. induction H23 as [|a b c' Hab _ IH]; [done|].
      apply IH. by eapply group_step_keeps_peers. }
    rewrite Hp3. symmetry. by eapply group_step_keeps_peers.
Qed.

End group_claims.

Section group_examples.
Import Go lc_cache lc_cache.fixtures.

Lemma Get_errors_witness :
  Get "missing" (group0, world0) =
  Returned (ByteView_zero, Some NotFound) (group0, world0).
Proof.
  apply (proj1 (proj2 (Get_errors group0 world0 "missing"))); [done|].
  split; [done|]. split; [done|].
  by exists group0, world0, (mainCache group0), nil_slice, 0, world0.
Defined.

Lemma getLocally_clones_and_stores_witness :
  ∃ bw s,
    getLocally "foo" (group0, world0) = Returned (bw, None) s ∧
    slice_bytes (heap (snd s)) (b bw) = bytes_of_string "bar".
Proof.
  destruct (getLocally_clones_and_stores group0 world0 "foo"
              (mainCache group0) (Slice (fresh (dom (heap world0))) 0 3) 0
              (snd (origin "foo" world0)))
    as (bw & w' & Hrun & Hcopy & _).
  - reflexivity.
  - reflexivity.
  - eexists. split; [apply lookup_insert_eq | simpl; lia].
  - exists bw. eexists. split; [exact Hrun|]. cbn [snd]. rewrite Hcopy.
    unfold slice_bytes, origin. simpl. by rewrite lookup_insert_eq.
Defined.

Lemma Delete_cases_witness :
  Delete "k1" (with_peers group0 (Some remote_picker), world0) =
  Returned (false, Some "peer down") (with_peers group0 (Some remote_picker), world0).
Proof.
  destruct (Delete_cases (with_peers group0 (Some remote_picker)) world0 "k1")
    as (_ & _ & _ & Hremote); [done|].
  by apply (Hremote remote_picker unreachable_peer world0 true (Some "peer down") world0).
Defined.

(** C8 as stated fails on the flag: a peer whose remote delete returns
    [true] together with an error makes [Delete] return [false] with
    that error. *)
Lemma Delete_remote_flag_not_as_is :
  ¬ (∀ (g : Group (C := bounded.t)) w key picker p w1 success err w2,
       key ≠ "" →
       peers g = Some picker →
       PickPeer picker key w = ((Some p, true, false), w1) →
       peer_Delete p (name g) key w1 = ((success, err), w2) →
       Delete key (g, w) = Returned (success, err) (g, w2)).
Proof.
  intros Hclaim.
  specialize (Hclaim (with_peers group0 (Some remote_picker)) world0 "k1"
                remote_picker unreachable_peer world0 true (Some "peer down") world0
                ltac:(done) eq_refl eq_refl eq_refl).
  assert (Delete "k1" (with_peers group0 (Some remote_picker), world0) =
          Returned (false, Some "peer down")
            (with_peers group0 (Some remote_picker), world0)) as Hrun
    by reflexivity.
  rewrite Hrun in Hclaim. discriminate Hclaim.
Qed.

Lemma misconfiguration_aborts_witness :
  RegisterPeers (Some self_picker) (with_peers group0 (Some remote_picker), world0) =
  Panicked (PanicMsg "RegisterPeerPicker called multiple times")
    (with_peers group0 (Some remote_picker), world0).
Proof.
  by apply (proj1 (proj2 misconfiguration_aborts)
              (with_peers group0 (Some remote_picker)) world0 remote_picker).
Defined.

(** C9 as stated fails on the second call: [RegisterPeers(nil)] returns
    and leaves the group without a picker, so a second call returns
    too. *)
Lemma RegisterPeers_second_call_returns :
  ¬ (∀ (g : Group (C := bounded.t)) w ps1 ps2 s1,
       RegisterPeers ps1 (g, w) = Returned tt s1 →
       ∃ p, RegisterPeers ps2 s1 = Panicked p s1).
Proof.
  intros Hclaim.
  destruct (Hclaim group0 world0 None (Some remote_picker) (group0, world0) eq_refl)
    as [p Hp].
  discriminate Hp.
Qed.

Lemma Get_unresolved_owner_is_local_witness :
  (∃ bw s,
     Get "foo" (with_peers group0 (Some empty_picker), world0) =
       Returned (bw, None) s ∧
     slice_bytes (heap (snd s)) (b bw) = bytes_of_string "bar") ∧
  ∃ s, Get "missing" (with_peers group0 (Some empty_picker), world0) =
       Returned (ByteView_zero, Some NotFound) s.
Proof.
  split.
  - destruct (Get_unresolved_owner_is_local
                (with_peers group0 (Some empty_picker)) world0 "foo"
                empty_picker None false world0) as (Hrun & _); [done..|].
    eexists _, _. split; [exact Hrun|].
    unfold slice_bytes, cloneBytes, origin. simpl.
    rewrite lookup_insert_eq. simpl. by rewrite lookup_insert_eq.
  - destruct (Get_unresolved_owner_is_local
                (with_peers group0 (Some empty_picker)) world0 "missing"
                empty_picker None false world0) as (Hrun & _); [done..|].
    eexists. exact Hrun.
Defined.

End group_examples.

(** * Further properties of the hash ring *)

Section ring_more.
Import Go consistenthash.

Lemma insert_members_same m0 m ks hm :
  hash m = hash m0 → replicas m = replicas m0 →
  insert_members m ks hm = insert_members m0 ks hm.
Proof.
  intros Hh Hr. unfold insert_members. revert hm.
  induction ks as [|x ks IH]; intros hm; [done|]. simpl.
  by rewrite IH, (vnodes_same m0 m x Hh Hr).
Qed.

Lemma all_vnodes_same m0 m ks :
  hash m = hash m0 → replicas m = replicas m0 →
  all_vnodes m ks = all_vnodes m0 ks.
Proof.
  intros Hh Hr. unfold all_vnodes. induction ks as [|x ks IH]; [done|].
  change (vnodes m x ++ (ks ≫= vnodes m) = vnodes m0 x ++ (ks ≫= vnodes m0)).
  by rewrite IH, (vnodes_same m0 m x Hh Hr).
Qed.

(** The outer loop of [Add], before the sort. *)
Lemma add_members_eq ks m :
  fold_left add_member ks m =
  {| hash := hash m; replicas := replicas m;
     keys := keys m ++ all_vnodes m ks;
     hashMap := insert_members m ks (hashMap m) |}.
Proof.
  revert m. induction ks as [|x ks IH]; intros m.
  { simpl. rewrite app_nil_r. by destruct m. }
  cbn [fold_left]. rewrite IH, add_member_eq. cbn [hash replicas keys hashMap].
  match goal with |- context [all_vnodes ?m1 ks] =>
    rewrite (all_vnodes_same m m1 ks eq_refl eq_refl),
            (insert_members_same m m1 ks _ eq_refl eq_refl) end.
  rewrite <- app_assoc. done.
Qed.

Lemma lookup_insert_members m ks hm k :
  ((k ∉ all_vnodes m ks) ∧ (insert_members m ks hm !! k = hm !! k)) ∨
  ((k ∈ all_vnodes m ks) ∧ ∃ x, x ∈ ks ∧ insert_members m ks hm !! k = Some x).
Proof.
  revert hm. induction ks as [|x ks IH]; intros hm.
  { left. split; [apply not_elem_of_nil | done]. }
  change (all_vnodes m (x :: ks)) with (vnodes m x ++ all_vnodes m ks).
  change (insert_members m (x :: ks) hm)
    with (insert_members m ks (insert_all x (vnodes m x) hm)).
  destruct (IH (insert_all x (vnodes m x) hm)) as [[Hnin Heq]|(Hin & y & Hy & Heq)].
  - rewrite Heq, lookup_insert_all.
    destruct (decide (k ∈ vnodes m x)) as [Hx|Hx].
    + right. split; [apply elem_of_app; by left|]. exists x. split; [left | done].
    + left. split; [|done]. by intros [?|?]%elem_of_app.
  - right. split; [apply elem_of_app; by right|]. exists y. split; [by right | done].
Qed.

Lemma Add_eq m ks :
  Add m ks =
  {| hash := hash m; replicas := replicas m;
     keys := Ints (keys m ++ all_vnodes m ks);
     hashMap := insert_members m ks (hashMap m) |}.
Proof. unfold Add. by rewrite add_members_eq. Qed.

(** On an ascending ring with entries, [Get] returns the member mapped
    to the entry that serves the hash of the key. *)
Lemma Get_nearest m key :
  StronglySorted Z.le (keys m) → keys m ≠ [] →
  ∃ k, nearest (keys m) (hash_of m key) k ∧ Get m key = owner m k.
Proof.
  intros Hs Hne. set (h := hash_of m key).
  destruct (SearchInts_sorted (keys m) h Hs) as (Hle & Hlo & Hhi).
  unfold SearchInts in Hle, Hlo, Hhi. unfold Get, owner. fold h.
  set (r := Search _ _) in *.
  assert (length (keys m) ≠ 0%nat) as Hlen by (by destruct (keys m)).
  rewrite decide_False by done.
  rewrite Forall_forall in Hlo. rewrite Forall_forall in Hhi.
  destruct (decide (r = length (keys m))) as [Hr|Hr].
  - rewrite Hr, Nat.Div0.mod_same. rewrite Hr, firstn_all in Hlo.
    destruct (keys m) as [|k0 l] eqn:Hkeys; [done|].
    exists k0. split; [|done]. split; [left|]. right. split; [done|].
    intros k' Hk'. apply StronglySorted_cons in Hs as [Hk0 _].
    rewrite Forall_forall in Hk0.
    apply elem_of_cons in Hk' as [->|Hk']; [lia | auto].
  - rewrite Nat.mod_small by lia.
    destruct (lookup_lt_is_Some_2 (keys m) r) as [k Hk]; [lia|].
    unfold index. rewrite (nth_lookup_Some _ _ _ _ Hk).
    exists k. split; [|done].
    assert (drop r (keys m) = k :: drop (S r) (keys m)) as Hdrop
      by (by apply drop_S).
    split; [by eapply list_elem_of_lookup_2|]. left. split.
    + apply Hhi. rewrite Hdrop. left.
    + intros k' Hk' Hhk'.
      rewrite <- (take_drop r (keys m)) in Hk', Hs.
      apply elem_of_app in Hk' as [Hk'|Hk'].
      { specialize (Hlo _ Hk'). lia. }
      apply StronglySorted_app_1_r in Hs. rewrite Hdrop in Hs, Hk'.
      apply StronglySorted_cons in Hs as [Hall _]. rewrite Forall_forall in Hall.
      apply elem_of_cons in Hk' as [->|Hk']; [lia | auto].
Qed.

Lemma nearest_unique ks h k1 k2 : nearest ks h k1 → nearest ks h k2 → k1 = k2.
Proof.
  intros [Hin1 [[Hh1 Hmin1]|[Hlt1 Hmin1]]] [Hin2 [[Hh2 Hmin2]|[Hlt2 Hmin2]]].
  - specialize (Hmin1 _ Hin2 Hh2). specialize (Hmin2 _ Hin1 Hh1). lia.
  - specialize (Hlt2 _ Hin1). lia.
  - specialize (Hlt1 _ Hin2). lia.
  - specialize (Hmin1 _ Hin2). specialize (Hmin2 _ Hin1). lia.
Qed.

Lemma nearest_subset ks ks' h k :
  nearest ks h k → k ∈ ks' → (∀ x, x ∈ ks' → x ∈ ks) → nearest ks' h k.
Proof.
  intros [_ [[Hh Hmin]|[Hlt Hmin]]] Hin Hsub; (split; [done|]).
  - left. split; [done|]. intros k' Hk'. apply Hmin. auto.
  - right. split; intros k' Hk'; [apply Hlt | apply Hmin]; auto.
Qed.

(** X1: in every ring state the program can build, also the one a
    [Remove] that panics leaves behind, the ring is in ascending order,
    which is what the binary searches of [Get] and [Remove] rely on. *)
Theorem ring_ascending m : reachable m → StronglySorted Z.le (keys m).
Proof.
  induction 1 as [opts Hopts|m ks _ _|m key _ IH].
  - destruct (New_empty opts Hopts) as [-> _]. constructor.
  - rewrite Add_eq. cbn [keys]. unfold Ints.
    apply StronglySorted_merge_sort; apply _.
  - unfold Remove. generalize (replica_range m). intros rs.
    revert m IH. induction rs as [|i rs IHrs]; intros m IH; [done|].
    cbn [remove_loop].
    pose proof (remove_vnode_sorted key m i IH) as Hs.
    destruct (remove_vnode key m i) as [[] m'|p m']; cbn [state_of] in *; auto.
Qed.

Lemma Add_ring_facts m ks :
  keys (Add m ks) ≡ₚ keys m ++ all_vnodes m ks ∧
  StronglySorted Z.le (keys (Add m ks)) ∧
  length (keys (Add m ks)) =
    (length (keys m) + length ks * Z.to_nat (replicas m))%nat ∧
  hash (Add m ks) = hash m ∧ replicas (Add m ks) = replicas m.
Proof.
  rewrite Add_eq. cbn [keys hash replicas]. unfold Ints.
  split; [apply merge_sort_Permutation|].
  split; [apply StronglySorted_merge_sort; apply _|].
  split; [|done].
  by rewrite merge_sort_Permutation, length_app, all_vnodes_length.
Qed.

(** X2: [Add] sorts the old entries together with the [replicas] hashes
    of every member given, duplicates included: the ring grows by
    [replicas] entries per member (by none when [replicas] is not
    positive), and [Add] changes neither the hash function nor the
    replica count. *)
Theorem Add_ring m ks :
  keys (Add m ks) ≡ₚ keys m ++ all_vnodes m ks ∧
  StronglySorted Z.le (keys (Add m ks)) ∧
  length (keys (Add m ks)) =
    (length (keys m) + length ks * Z.to_nat (replicas m))%nat ∧
  hash (Add m ks) = hash m ∧ replicas (Add m ks) = replicas m.
Proof.
  unfold Add. rewrite add_members_eq. cbn [keys hash replicas]. unfold Ints.
  pose proof (merge_sort_Permutation Z.le (keys m ++ all_vnodes m ks)) as Hperm.
  split; [exact Hperm|].
  split; [apply StronglySorted_merge_sort; apply _|].
  split; [|done].
  apply Permutation_length in Hperm.
  rewrite Hperm, length_app, all_vnodes_length. done.
Qed.

(** X3: one call of [Add] with several members builds the same ring as
    adding them in successive calls. *)
Theorem Add_app m ks1 ks2 : Add (Add m ks1) ks2 = Add m (ks1 ++ ks2).
Proof.
  rewrite !Add_eq. cbn [keys hash replicas hashMap].
  match goal with |- context [all_vnodes ?m1 ks2] =>
    rewrite (all_vnodes_same m m1 ks2 eq_refl eq_refl),
            (insert_members_same m m1 ks2 _ eq_refl eq_refl) end.
  f_equal.
  - apply (StronglySorted_unique Z.le); unfold Ints;
      [apply StronglySorted_merge_sort; apply _ ..|].
    rewrite !merge_sort_Permutation, all_vnodes_app. by rewrite <- app_assoc.
  - unfold insert_members. by rewrite fold_left_app.
Qed.

(** X4: adding members moves a key only to one of the new members: on
    a ring state the program can build, after [Add] a key is served
    either by one of the members just added or by the member that served
    it before. *)
Theorem Get_after_Add m ks key :
  reachable m →
  Get (Add m ks) key = Get m key ∨ Get (Add m ks) key ∈ ks.
Proof.
  intros Hs%reachable_sorted.
  destruct (Add_ring_facts m ks) as (Hperm & Hs' & _ & Hh & _).
  assert (hash_of (Add m ks) key = hash_of m key) as Hhash
    by (unfold hash_of; by rewrite Hh).
  destruct (decide (keys (Add m ks) = [])) as [Hnil|Hne].
  { left. rewrite Hnil in Hperm. symmetry in Hperm.
    apply Permutation_nil_r, app_eq_nil in Hperm as [Hk _].
    unfold Get. by rewrite Hnil, Hk. }
  destruct (Get_nearest (Add m ks) key Hs' Hne) as (k & Hk & ->).
  rewrite Hhash in Hk. unfold owner. rewrite Add_eq. cbn [hashMap].
  destruct (lookup_insert_members m ks (hashMap m) k)
    as [[Hnin ->]|(_ & x & Hx & ->)]; [|by right].
  left. pose proof Hk as [Hin _]. rewrite Hperm in Hin.
  apply elem_of_app in Hin as [Hin|Hin]; [|done].
  assert (keys m ≠ []) as Hne' by (intros Hnil; rewrite Hnil in Hin; by apply elem_of_nil in Hin).
  destruct (Get_nearest m key Hs Hne') as (k' & Hk' & ->).
  assert (k' = k) as ->; [|done].
  apply (nearest_unique (keys m) (hash_of m key)); [done|].
  apply (nearest_subset (keys (Add m ks))); [done | done |].
  intros y Hy. rewrite Hperm. apply elem_of_app. by left.
Qed.

(** X5: on an empty ring with a positive replica count, [Add] of at
    least one member makes [Get] return one of the members added, for
    every key, whatever the hash function and whatever collisions there
    are. *)
Theorem Get_after_first_Add m ks key :
  keys m = [] → 1 ≤ replicas m → ks ≠ [] →
  Get (Add m ks) key ∈ ks.
Proof.
  intros Hnil Hr Hks.
  destruct (Add_ring_facts m ks) as (Hperm & Hs' & Hlen & _).
  rewrite Hnil in Hperm, Hlen. cbn [app length Nat.add] in Hperm, Hlen.
  assert (keys (Add m ks) ≠ []) as Hne.
  { intros Hk. rewrite Hk in Hlen. destruct ks; [done|].
    cbn [length] in Hlen. lia. }
  destruct (Get_nearest (Add m ks) key Hs' Hne) as (k & [Hin _] & ->).
  rewrite Hperm in Hin. unfold owner. rewrite Add_eq. cbn [hashMap].
  by destruct (lookup_insert_members m ks (hashMap m) k)
    as [[Hnin _]|(_ & x & Hx & ->)].
Qed.

Lemma Remove_present_facts m key :
  StronglySorted Z.le (keys m) →
  vnodes m key ⊆+ keys m →
  ∃ m', Remove m key = Returned tt m' ∧
        keys m ≡ₚ vnodes m key ++ keys m' ∧
        StronglySorted Z.le (keys m') ∧
        hashMap m' = delete_all (vnodes m key) (hashMap m) ∧
        hash m' = hash m ∧ replicas m' = replicas m.
Proof.
  intros Hs Hsub.
  destruct (remove_loop_present key (replica_range m) m Hs Hsub)
    as (ks & Heq & Hperm & Hs').
  eexists. split; [exact Heq|]. done.
Qed.

(** X6: when the ring is ascending and holds the hashes of a member
    (counted with their multiplicity), [Remove] of the member returns
    normally: it takes exactly these hashes out of the ring, one
    occurrence each, deletes them from the mapping, keeps the ring
    ascending and changes neither the hash function nor the replica
    count. *)
Theorem Remove_present m key :
  StronglySorted Z.le (keys m) →
  vnodes m key ⊆+ keys m →
  ∃ m', Remove m key = Returned tt m' ∧
        keys m ≡ₚ vnodes m key ++ keys m' ∧
        StronglySorted Z.le (keys m') ∧
        hashMap m' = delete_all (vnodes m key) (hashMap m) ∧
        hash m' = hash m ∧ replicas m' = replicas m.
Proof.
  intros Hs Hsub. unfold Remove.
  destruct (remove_loop_present key (replica_range m) m Hs Hsub)
    as (ks & Hrun & Hperm & Hs').
  exists {| hash := hash m; replicas := replicas m; keys := ks;
            hashMap := delete_all (vnodes m key) (hashMap m) |}.
  split; [exact Hrun|]. cbn [keys hashMap hash replicas].
  split; [exact Hperm|]. split; [exact Hs'|]. done.
Qed.

(** X7: removing a member leaves every other ownership alone: when the
    ring is ascending, holds the hashes of the member and maps each of
    them to the member, a key that was not served by the member is
    served by the same member after [Remove]. *)
Theorem Remove_keeps_other_owners m x key :
  StronglySorted Z.le (keys m) →
  vnodes m x ⊆+ keys m →
  (∀ h, h ∈ vnodes m x → owner m h = x) →
  Get m key ≠ x →
  ∃ m', Remove m x = Returned tt m' ∧ Get m' key = Get m key.
Proof.
  intros Hs Hsub Hown Hget.
  destruct (Remove_present_facts m x Hs Hsub) as (m' & Hrun & Hperm & Hs' & Hmap & Hh & _).
  exists m'. split; [done|].
  assert (hash_of m' key = hash_of m key) as Hhash
    by (unfold hash_of; by rewrite Hh).
  destruct (decide (keys m = [])) as [Hnil|Hne].
  { rewrite Hnil in Hperm. symmetry in Hperm.
    apply Permutation_nil_r, app_eq_nil in Hperm as [_ Hk].
    unfold Get. by rewrite Hnil, Hk. }
  destruct (Get_nearest m key Hs Hne) as (k & Hk & Heq).
  rewrite Heq in Hget |- *.
  assert (k ∉ vnodes m x) as Hnin by (intros Hin; by apply Hget, Hown).
  assert (k ∈ keys m') as Hin'.
  { pose proof Hk as [Hin _]. rewrite Hperm in Hin.
    by apply elem_of_app in Hin as [Hin|Hin]. }
  assert (keys m' ≠ []) as Hne'
    by (intros Hk'; rewrite Hk' in Hin'; by apply elem_of_nil in Hin').
  destruct (Get_nearest m' key Hs' Hne') as (k' & Hk' & ->).
  rewrite Hhash in Hk'.
  assert (k' = k) as ->.
  { apply (nearest_unique (keys m') (hash_of m key)); [done|].
    apply (nearest_subset (keys m)); [done | done |].
    intros y Hy. rewrite Hperm. apply elem_of_app. by right. }
  unfold owner. rewrite Hmap, lookup_delete_all. by rewrite decide_False.
Qed.

(** X8: on an ascending ring, a round of the loop of [Remove] panics
    exactly when every ring entry is below the hash it has computed; in
    particular [Remove] panics on an empty ring whose replica count is
    positive, and it leaves the ring as it was. *)
Theorem Remove_panics_iff m key :
  StronglySorted Z.le (keys m) →
  (∀ i, panicked (remove_vnode key m i) ↔
        Forall (λ k, k < vnode m i key) (keys m)) ∧
  (keys m = [] → 1 ≤ replicas m →
   Remove m key = Panicked (SliceBoundsOutOfRange 1 0) m).
Proof.
  intros Hs. split.
  - intros i. unfold remove_vnode.
    destruct (SearchInts_sorted (keys m) (vnode m i key) Hs) as (Hle & Hlo & Hhi).
    set (r := SearchInts _ _) in *.
    case_decide as Hr; simpl.
    + split; [done|]. intros Hall.
      destruct (lookup_lt_is_Some_2 (keys m) r) as [k Hk]; [lia|].
      rewrite Forall_lookup in Hall, Hhi. specialize (Hall _ _ Hk).
      specialize (Hhi 0%nat k). rewrite lookup_drop, Nat.add_0_r in Hhi.
      specialize (Hhi Hk). lia.
    + split; [|done]. intros _.
      assert (r = length (keys m)) as Heq by lia.
      by rewrite Heq, firstn_all in Hlo.
  - intros Hnil Hr. unfold Remove, replica_range.
    destruct (Z.to_nat (replicas m)) as [|n] eqn:Hn; [lia|].
    cbn [seq fmap list_fmap remove_loop]. unfold remove_vnode.
    rewrite Hnil. unfold SearchInts, Search. simpl. done.
Qed.

(** X15: removing a member and adding it again gives the ring back:
    when the ring is ascending, holds the hashes of the member and maps
    each of them to the member, [Remove] returns normally and [Add] of the
    member to the ring it leaves rebuilds the ring and the mapping exactly
    as they were. *)
Theorem Add_after_Remove_restores m x :
  StronglySorted Z.le (keys m) →
  vnodes m x ⊆+ keys m →
  (∀ h, h ∈ vnodes m x → hashMap m !! h = Some x) →
  ∃ m', Remove m x = Returned tt m' ∧ Add m' [x] = m.
Proof.
  intros Hs Hsub Hown.
  destruct (Remove_present_facts m x Hs Hsub)
    as (m' & Hrun & Hperm & Hs' & Hmap & Hh & Hr).
  exists m'. split; [done|].
  rewrite Add_eq, Hh, Hr, Hmap.
  rewrite (all_vnodes_same m m' [x] Hh Hr), (insert_members_same m m' [x] _ Hh Hr).
  assert (all_vnodes m [x] = vnodes m x) as ->.
  { unfold all_vnodes. simpl. apply app_nil_r. }
  change (insert_members m [x] ?hm) with (insert_all x (vnodes m x) hm).
  assert (Ints (keys m' ++ vnodes m x) = keys m) as ->.
  { apply (StronglySorted_unique Z.le); unfold Ints;
      [apply StronglySorted_merge_sort; apply _ | done |].
    rewrite merge_sort_Permutation, Hperm. apply Permutation_app_comm. }
  assert (insert_all x (vnodes m x) (delete_all (vnodes m x) (hashMap m))
          = hashMap m) as ->.
  { apply map_eq. intros k. rewrite lookup_insert_all, lookup_delete_all.
    destruct (decide (k ∈ vnodes m x)); [by rewrite Hown | done]. }
  by destruct m.
Qed.

End ring_more.

(** * Further properties of the cache group *)

Section group_more.
Import Go lc_cache.
Context {C : Type} `{Store C}.

(** X10: a picker that resolves a key that is not empty to a remote
    owner (ok, not self) and hands out a nil peer makes [Get] and
    [Delete] panic on the call of the method of the peer.  Nothing has
    been done by then but the call of the picker: the world is as the
    picker left it and the local store is as it was. *)
Theorem Get_Delete_nil_peer_panics (g : Group) (w : World) key picker w1 :
  key ≠ "" →
  peers g = Some picker →
  PickPeer picker key w = ((None, true, false), w1) →
  (∃ s, Get key (g, w) = Panicked NilDereference s ∧
        snd s = w1 ∧ mainCache (fst s) = mainCache g) ∧
  Delete key (g, w) = Panicked NilDereference (g, w1).
Proof.
  intros Hkey Hpeers Hpick. split.
  - exists (g, w1). split; [|done].
    unfold Get. rewrite decide_False by done.
    by rewrite load_unfold, from_peers_unfold, Hpeers, Hpick.
  - unfold Delete, deleteFromPeer, bind, ret, this, call, on_cache, deref, throw.
    rewrite decide_False by done. simpl. rewrite Hpeers. simpl.
    by rewrite Hpick.
Qed.

(** X11: a hit in the local store answers [Get] at once.  Without a
    picker, or when the picker resolves the key to this process, a value
    found in the local store is returned without error; the loader is not
    called: heap and clock stay as they were (as the picker left them),
    and the log gains the one line "[Geek-Cache] hit". *)
Theorem Get_local_hit (g : Group) (w : World) key v c1 :
  key ≠ "" →
  (peers g = None →
   cache_get key (clock w) (mainCache g) = (Some v, c1) →
   Get key (g, w) =
   Returned (v, None)
     (with_cache g c1,
      {| heap := heap w; clock := clock w;
         logs := logs w ++ ["[Geek-Cache] hit"] |})) ∧
  (∀ picker peer w1,
     peers g = Some picker →
     PickPeer picker key w = ((peer, true, true), w1) →
     cache_get key (clock w1) (mainCache g) = (Some v, c1) →
     Get key (g, w) =
     Returned (v, None)
       (with_cache g c1,
        {| heap := heap w1; clock := clock w1;
           logs := logs w1 ++ ["[Geek-Cache] hit"] |})).
Proof.
  intros Hkey. unfold Get. rewrite decide_False by done.
  rewrite load_unfold, from_peers_unfold. split.
  - intros -> Hhit. by rewrite getLocally_unfold, Hhit.
  - intros picker peer w1 -> Hpick Hhit. rewrite Hpick.
    destruct peer; by rewrite Hhit.
Qed.

(** X12: a value fetched from the remote owner is handed out and not
    kept: when the picker resolves the key to a remote peer whose get
    succeeds, [Get] returns without error a [ByteView] over a buffer of
    its own that holds the bytes of the peer, which later writes through
    the slice of the peer do not change; the group, its local store
    included, is as before, and neither the local store nor the loader is
    consulted. *)
Theorem Get_from_remote_owner (g : Group) (w : World) key
    picker p w1 bytes w2 :
  key ≠ "" →
  peers g = Some picker →
  PickPeer picker key w = ((Some p, true, false), w1) →
  peer_Get p (name g) key w1 = ((bytes, None), w2) →
  valid_slice (heap w2) bytes →
  ∃ bw w',
    Get key (g, w) = Returned (bw, None) (g, w') ∧
    clock w' = clock w2 ∧ logs w' = logs w2 ∧
    slice_bytes (heap w') (b bw) = slice_bytes (heap w2) bytes ∧
    ∀ writes h',
      slice_stores (heap w') bytes writes = Some h' →
      slice_bytes h' (b bw) = slice_bytes (heap w2) bytes.
Proof.
  intros Hkey Hpeers Hpick Hget Hvalid.
  exists {| b := fst (cloneBytes bytes w2) |}, (snd (cloneBytes bytes w2)).
  split.
  { unfold Get. rewrite decide_False by done.
    by rewrite load_unfold, from_peers_unfold, Hpeers, Hpick, Hget. }
  unfold cloneBytes. cbn [fst snd heap clock logs b].
  split; [done|]. split; [done|].
  set (data := slice_bytes (heap w2) bytes).
  set (q := fresh (dom (heap w2))).
  assert (∀ h : heap_t, h !! q = Some data →
               slice_bytes h (Slice q 0 (length data)) = data) as Hread.
  { intros h Hq. unfold slice_bytes. rewrite Hq. cbn [default].
    by rewrite drop_0, firstn_all. }
  split; [apply Hread, lookup_insert_eq|].
  intros writes h' Hw. apply Hread.
  rewrite (slice_stores_other _ _ _ _ q Hw); [apply lookup_insert_eq|].
  intros l off n ->. destruct Hvalid as (buf & Hl & _).
  intros ->. apply (is_fresh (dom (heap w2))). fold q.
  apply elem_of_dom. eauto.
Qed.

(** X13: [NewGroup] with a getter returns a pointer to a new group
    object, without picker and with the given name and getter, and
    registers it under the name: [GetGroup] of the name finds it, a group
    registered before under the same name is replaced, every other name
    resolves as before and every existing group object is untouched. *)
Theorem NewGroup_registers name cacheBytes f (pk : Package (C:=C)) :
  ∃ g pk',
    NewGroup name cacheBytes (Some f) pk = Returned g pk' ∧
    GetGroup name pk' = Some g ∧
    objects pk' !! g = Some (new_group name cacheBytes f) ∧
    objects pk !! g = None ∧
    (∀ other, other ≠ name → GetGroup other pk' = GetGroup other pk) ∧
    (∀ q, q ≠ g → objects pk' !! q = objects pk !! q).
Proof.
  eexists _, _. split; [reflexivity|]. unfold GetGroup. cbn [groups objects].
  split; [apply lookup_insert_eq|]. split; [apply lookup_insert_eq|].
  split; [apply not_elem_of_dom, is_fresh|].
  split; intros x Hx; by apply lookup_insert_ne.
Qed.

(** X14: [DestroyGroup] removes the name from the registry and nothing
    else: afterwards [GetGroup] of the name finds nothing, every other
    name resolves as before and the group objects are untouched, so that
    a caller who holds the pointer can go on using the group.  On a name
    that is not registered it changes nothing and writes no log line; on
    a registered name it writes one. *)
Theorem DestroyGroup_unregisters name (pk : Package (C:=C)) (w : World) :
  let pk' := fst (DestroyGroup name pk w) in
  let w' := snd (DestroyGroup name pk w) in
  GetGroup name pk' = None ∧
  (∀ other, other ≠ name → GetGroup other pk' = GetGroup other pk) ∧
  objects pk' = objects pk ∧
  (GetGroup name pk = None → pk' = pk ∧ w' = w) ∧
  (is_Some (GetGroup name pk) →
   logs w' = logs w ++ ["Destroy store [" +:+ name +:+ "]"] ∧
   heap w' = heap w ∧ clock w' = clock w).
Proof.
  cbv zeta. unfold DestroyGroup.
  destruct (GetGroup name pk) as [g|] eqn:Hg; unfold GetGroup in *;
    cbn [fst snd groups objects].
  - split; [apply lookup_delete_eq|].
    split; [intros other Hne; by apply lookup_delete_ne|].
    split; [done|]. split; [done|]. done.
  - split; [done|]. split; [done|]. split; [done|]. split; [done|].
    by intros [? [=]].
Qed.

End group_more.

Section ring_more_examples.
Import Go consistenthash.

Lemma ring_ascending_witness :
  StronglySorted Z.le
    (keys (state_of (Remove (Add (New [Replicas 2]) ["a"; "b"]) "c"))).
Proof.
  apply ring_ascending. apply reach_Remove, reach_Add, reach_New.
  repeat constructor.
Defined.

Lemma Get_after_Add_witness :
  Get (Add (Add (New [Replicas 2]) ["a"; "b"]) ["c"]) "k" =
    Get (Add (New [Replicas 2]) ["a"; "b"]) "k" ∨
  Get (Add (Add (New [Replicas 2]) ["a"; "b"]) ["c"]) "k" ∈ ["c"].
Proof.
  apply Get_after_Add. apply reach_Add, reach_New. repeat constructor.
Defined.

Lemma Get_after_first_Add_witness :
  Get (Add (New [Replicas 2]) ["a"; "b"]) "k" ∈ ["a"; "b"].
Proof.
  apply Get_after_first_Add; [reflexivity | by vm_compute | done].
Defined.

Lemma Remove_present_witness :
  ∃ m', Remove (Add (New [Replicas 2]) ["a"; "b"]) "a" = Returned tt m' ∧
        length (keys m') = 2%nat.
Proof.
  destruct (Remove_present (Add (New [Replicas 2]) ["a"; "b"]) "a")
    as (m' & Hrun & Hperm & _).
  - apply Add_sorted.
  - apply NoDup_submseteq.
    + apply (bool_decide_unpack _). by vm_compute.
    + apply Forall_forall. apply (bool_decide_unpack _). by vm_compute.
  - exists m'. split; [exact Hrun|].
    apply Permutation_length in Hperm. rewrite length_app in Hperm.
    rewrite vnodes_length in Hperm.
    assert (length (keys (Add (New [Replicas 2]) ["a"; "b"])) = 4%nat) as Hlen
      by (by vm_compute).
    rewrite Hlen in Hperm.
    assert (Z.to_nat (replicas (Add (New [Replicas 2]) ["a"; "b"])) = 2%nat) as Hr
      by (by vm_compute).
    rewrite Hr in Hperm. lia.
Defined.

Lemma Remove_keeps_other_owners_witness :
  ∃ m', Remove (Add (New [Replicas 2]) ["a"; "b"]) "a" = Returned tt m' ∧
        Get m' "k" = "b".
Proof.
  destruct (Remove_keeps_other_owners (Add (New [Replicas 2]) ["a"; "b"]) "a" "k")
    as (m' & Hrun & Hget).
  - apply Add_sorted.
  - apply NoDup_submseteq.
    + apply (bool_decide_unpack _). by vm_compute.
    + apply Forall_forall. apply (bool_decide_unpack _). by vm_compute.
  - apply Forall_forall. apply (bool_decide_unpack _). by vm_compute.
  - apply (bool_decide_unpack _). by vm_compute.
  - exists m'. split; [exact Hrun|]. rewrite Hget. by vm_compute.
Defined.

Lemma Remove_panics_iff_witness :
  Remove (New []) "a" = Panicked (SliceBoundsOutOfRange 1 0) (New []).
Proof.
  apply (proj2 (Remove_panics_iff (New []) "a" ltac:(constructor)));
    [reflexivity | by vm_compute].
Defined.

Lemma Add_after_Remove_restores_witness :
  ∃ m', Remove (Add (New [Replicas 2]) ["a"; "b"]) "a" = Returned tt m' ∧
        keys (Add m' ["a"]) = keys (Add (New [Replicas 2]) ["a"; "b"]).
Proof.
  destruct (Add_after_Remove_restores (Add (New [Replicas 2]) ["a"; "b"]) "a")
    as (m' & Hrun & Hback).
  - apply Add_sorted.
  - apply NoDup_submseteq.
    + apply (bool_decide_unpack _). by vm_compute.
    + apply Forall_forall. apply (bool_decide_unpack _). by vm_compute.
  - apply Forall_forall. apply (bool_decide_unpack _). by vm_compute.
  - exists m'. split; [exact Hrun|]. by rewrite Hback.
Defined.

End ring_more_examples.

Section group_more_examples.
Import Go lc_cache lc_cache.fixtures.

Lemma Get_Delete_nil_peer_panics_witness :
  Delete "k1" (with_peers group0 (Some nil_peer_picker), world0) =
  Panicked NilDereference (with_peers group0 (Some nil_peer_picker), world0).
Proof.
  by apply (proj2 (Get_Delete_nil_peer_panics
                     (with_peers group0 (Some nil_peer_picker)) world0 "k1"
                     nil_peer_picker world0 ltac:(done) eq_refl eq_refl)).
Defined.

Lemma Get_local_hit_witness :
  ∃ c1, Get "foo" (group1, world1) =
        Returned ({| b := Slice 0 0 3 |}, None)
          (with_cache group1 c1,
           {| heap := heap world1; clock := 100;
              logs := ["[Geek-Cache] hit"] |}).
Proof.
  eexists.
  apply (proj1 (Get_local_hit group1 world1 "foo" {| b := Slice 0 0 3 |} _
                  ltac:(done))); reflexivity.
Defined.

Lemma Get_from_remote_owner_witness :
  ∃ bw w',
    Get "k1" (with_peers group0 (Some answering_picker), world0) =
      Returned (bw, None) (with_peers group0 (Some answering_picker), w') ∧
    slice_bytes (heap w') (b bw) = bytes_of_string "qux".
Proof.
  destruct (Get_from_remote_owner
              (with_peers group0 (Some answering_picker)) world0 "k1"
              answering_picker answering_peer world0
              (Slice (fresh (dom (heap world0))) 0 3)
              (snd (peer_Get answering_peer "scores" "k1" world0)))
    as (bw & w' & Hrun & _ & _ & Hcopy & _); try done.
  - eexists. split; [apply lookup_insert_eq | simpl; lia].
  - exists bw, w'. split; [exact Hrun|]. rewrite Hcopy.
    unfold slice_bytes, answering_peer. simpl. by rewrite lookup_insert_eq.
Defined.

Lemma DestroyGroup_unregisters_witness :
  GetGroup "scores" registry1 = Some 0%nat ∧
  GetGroup "scores" (fst (DestroyGroup "scores" registry1 world0)) = None ∧
  logs (snd (DestroyGroup "scores" registry1 world0)) = ["Destroy store [scores]"].
Proof.
  split; [reflexivity|].
  destruct (DestroyGroup_unregisters "scores" registry1 world0)
    as (Hgone & _ & _ & _ & Hlog).
  split; [exact Hgone|].
  destruct Hlog as (Hl & _); [by eexists|]. exact Hl.
Defined.

End group_more_examples.
